(** * sse: Server-Sent Events streamer (sse.go)

    A shallow embedding of the Go package [sse] and the properties of its
    frame encoder, its coordinator loop and its connection handler.

    Conventions of the embedding.
    - A Go [string] and the contents of a [[]byte] are [list byte].
    - A Go [int] is a [Z]; the lengths that occur are lengths of objects
      in memory, so no wrap-around is reachable and none is modelled for
      them.  [int64] and [uint64] payloads are [Z] with the conversions
      of [strconv] written out modulo [2^64].
    - A Go slice is a backing array together with its length; the
      capacity is the length of the backing array.  Every operation
      that can panic (index out of range, slice bounds out of range)
      returns [None] in that case.
    - The goroutines are a step relation on the state of the
      coordinator, of every running [ServeHTTP] and of the channels.
      [s.event] is the sequence of frames sent and not yet received;
      the other channels are unbuffered, so a send on them is one step
      together with its receive.  [json.Marshal] and the growth policy
      of [append] are parameters. *)

From Stdlib Require Import ZArith Lia.
From Stdlib Require Import Strings.Byte Strings.String.
From stdpp Require Import base option list gmap strings relations.
Import Corelib.Init.Byte.

Local Open Scope Z_scope.

Abbreviation byte := Corelib.Init.Byte.byte.

(** ** Byte strings *)

Definition zlen {A} (l : list A) : Z := Z.of_nat (length l).

Definition LF : byte := x0a.
Definition COLON : byte := x3a.
Definition MINUS : byte := x2d.

Definition lit_event : list byte := Eval cbv in list_byte_of_string "event:".
Definition lit_data : list byte := Eval cbv in list_byte_of_string "data".
Definition lit_end : list byte := [LF; LF].

(** ** Go slices of bytes *)

Record slice := Slice { arr : list byte; len : Z }.

Definition cap (p : slice) : Z := zlen (arr p).

(** The bytes a reader of the slice sees: [p[0:len(p)]]. *)
Definition bytes (p : slice) : list byte := take (Z.to_nat (len p)) (arr p).

(** [make([]byte, l)].  The lengths passed here are sums of lengths of
    byte strings in memory and small constants; a length that wraps
    around in [int] or that cannot be allocated is outside the model. *)
Definition make (l : Z) : option slice :=
  if l <? 0 then None else Some (Slice (replicate (Z.to_nat l) x00) l).

(** Overwrite [a] from index [i] on with [src]. *)
Definition splice (a : list byte) (i : Z) (src : list byte) : list byte :=
  take (Z.to_nat i) a ++ src ++ drop (Z.to_nat i + length src)%nat a.

(** [copy(p[i:], src)]: the slice expression panics unless
    [0 <= i <= len(p)]; [copy] moves [min(len(src), len(p)-i)] bytes and
    returns that number. *)
Definition copy_at (p : slice) (i : Z) (src : list byte) : option (slice * Z) :=
  if (0 <=? i) && (i <=? len p) then
    let n := Z.min (zlen src) (len p - i) in
    Some (Slice (splice (arr p) i (take (Z.to_nat n) src)) (len p), n)
  else None.

(** [p[i] = b] *)
Definition set_at (p : slice) (i : Z) (b : byte) : option slice :=
  if (0 <=? i) && (i <? len p) then
    Some (Slice (<[Z.to_nat i := b]> (arr p)) (len p))
  else None.

(** [p[:n]]: for a slice the upper bound is the capacity. *)
Definition reslice (p : slice) (n : Z) : option slice :=
  if (0 <=? n) && (n <=? cap p) then Some (Slice (arr p) n) else None.

(** [append(p, src...)]: written in place while the capacity suffices,
    into a fresh array of capacity [growslice (cap p) needed] otherwise. *)
Definition append (growslice : Z -> Z -> Z) (p : slice) (src : list byte) : slice :=
  let needed := len p + zlen src in
  if needed <=? cap p then
    Slice (splice (arr p) (len p) src) needed
  else
    Slice (bytes p ++ src ++
           replicate (Z.to_nat (growslice (cap p) needed - needed)) x00) needed.

(** ** strconv: decimal formatting *)

Definition digit (d : Z) : byte :=
  match d with
  | 0 => x30 | 1 => x31 | 2 => x32 | 3 => x33 | 4 => x34
  | 5 => x35 | 6 => x36 | 7 => x37 | 8 => x38 | _ => x39
  end.

(** Digits of [u], least significant produced first and pushed in front
    of [acc]; at least one digit is produced. *)
Fixpoint utoa_loop (fuel : nat) (u : Z) (acc : list byte) : list byte :=
  let acc' := digit (u mod 10) :: acc in
  match fuel with
  | O => acc'
  | S fuel' => if u / 10 =? 0 then acc' else utoa_loop fuel' (u / 10) acc'
  end.

(** [strconv.FormatUint(u, 10)].  The loop runs once per decimal digit;
    the number of binary digits bounds that from above. *)
Definition FormatUint (u : Z) : list byte :=
  utoa_loop (Z.to_nat (Z.log2 u)) u [].

Definition uint64 (i : Z) : Z := i mod 2 ^ 64.

(** [strconv.FormatInt(i, 10)]: the magnitude is taken in [uint64]. *)
Definition FormatInt (i : Z) : list byte :=
  let u := uint64 i in
  if i <? 0 then MINUS :: FormatUint (uint64 (- u)) else FormatUint u.

Definition AppendInt (growslice : Z -> Z -> Z) (dst : slice) (i : Z) : slice :=
  append growslice dst (FormatInt i).

Definition AppendUint (growslice : Z -> Z -> Z) (dst : slice) (u : Z) : slice :=
  append growslice dst (FormatUint u).

(** ** The frame encoder *)

(** [format(id, event, dataLen)] *)
Definition format (id event : list byte) (dataLen : Z) : option slice :=
  (* calc length *)
  let l := 6 in
  let l := if 0 <? zlen event then l + (6 + zlen event + 1) else l in
  let l := if 0 <? dataLen then l + (1 + dataLen) else l in
  (* build *)
  p ← make l;
  let i := 0 in
  '(p, i) ← (if 0 <? zlen event then
               '(p, _) ← copy_at p 0 lit_event;
               '(p, n) ← copy_at p 6 event;
               let i := i + (6 + n) in
               p ← set_at p i LF;
               Some (p, i + 1)
             else Some (p, i));
  '(p, n) ← copy_at p i lit_data;
  let i := i + n in
  '(p, i) ← (if 0 <? dataLen then
               p ← set_at p i COLON;
               Some (p, i + (1 + dataLen))
             else Some (p, i));
  '(p, _) ← copy_at p i lit_end;
  Some p.

(** ** The Streamer and its producers *)

Abbreviation frame := (list byte).
Abbreviation client := nat.

(** The fields of [Streamer] that carry state.  [event] is the channel
    of submitted frames in the order of submission: the buffered frame
    followed by the frames of blocked senders.  [connecting] and
    [disconnecting] are unbuffered and hold nothing. *)
Record Streamer := mkStreamer {
  event : list frame;
  clients : gmap client bool
}.

(** [New()] *)
Definition New : Streamer := mkStreamer [] ∅.

(** [s.event <- p]: the receiver reads [p[0:len(p)]]. *)
Definition send_event (p : slice) (s : Streamer) : Streamer :=
  mkStreamer (event s ++ [bytes p]) (clients s).

Definition maxIntToStrLen : Z := 20.
Definition maxUintToStrLen : Z := 20.

Section Producers.
(** The growth policy of [append] and [json.Marshal] are the
    runtime's and the standard library's. *)
Variable growslice : Z -> Z -> Z.
Context {V E : Type}.
Variable Marshal : V -> list byte + E.

Definition SendBytes (id event : list byte) (data : list byte)
    (s : Streamer) : option Streamer :=
  p ← format id event (zlen data);
  '(p, _) ← copy_at p (len p - (2 + zlen data)) data;
  Some (send_event p s).

Definition SendInt (id event : list byte) (data : Z)
    (s : Streamer) : option Streamer :=
  p ← format id event maxIntToStrLen;
  p ← reslice p (len p - (maxIntToStrLen + 2));
  let p := AppendInt growslice p data in
  (* Re-add \n\n at the end *)
  p ← reslice p (len p + 2);
  p ← set_at p (len p - 2) LF;
  p ← set_at p (len p - 1) LF;
  Some (send_event p s).


Definition SendString (id event data : list byte)
    (s : Streamer) : option Streamer :=
  p ← format id event (zlen data);
  '(p, _) ← copy_at p (len p - (2 + zlen data)) data;
  Some (send_event p s).

Definition SendUint (id event : list byte) (data : Z)
    (s : Streamer) : option Streamer :=
  p ← format id event maxUintToStrLen;
  p ← reslice p (len p - (maxUintToStrLen + 2));
  let p := AppendUint growslice p data in
  (* Re-add \n\n at the end *)
  p ← reslice p (len p + 2);
  p ← set_at p (len p - 2) LF;
  p ← set_at p (len p - 1) LF;
  Some (send_event p s).
End Producers.

(** ** The wire format, as the SSE grammar writes it

    [event:<type>\n] when the type is not empty, [data], [:<payload>]
    when the payload is not empty, and the blank line. *)

Definition event_line (event : list byte) : list byte :=
  match event with [] => [] | _ => lit_event ++ event ++ [LF] end.

Definition data_field (payload : list byte) : list byte :=
  match payload with [] => [] | _ => COLON :: payload end.

Definition wire (event payload : list byte) : frame :=
  event_line event ++ lit_data ++ data_field payload ++ lit_end.

(** ** Auxiliary notions for the statements *)

Definition zeros (n : Z) : list byte := replicate (Z.to_nat n) x00.

(** The reserved, still unwritten payload of [dataLen] bytes. *)
Definition data_gap (dataLen : Z) : list byte :=
  if 0 <? dataLen then COLON :: zeros dataLen else [].

Definition layout (event : list byte) (dataLen : Z) : list byte :=
  event_line event ++ lit_data ++ data_gap dataLen ++ lit_end.

Definition submit (f : frame) (s : Streamer) : Streamer :=
  mkStreamer (event s ++ [f]) (clients s).

Definition digit_value (b : byte) : Z := Z.of_N (Byte.to_N b) - 48.

Definition is_digit (b : byte) : Prop := 0 <= digit_value b < 10.

Definition decimal_value (ds : list byte) : Z :=
  fold_left (fun a b => 10 * a + digit_value b) ds 0.

(** The steps [SendInt] and [SendUint] share once the number is
    formatted as [txt]. *)
Definition numeric_steps (growslice : Z -> Z -> Z) (id event txt : list byte)
    : option slice :=
  p ← format id event 20;
  p ← reslice p (len p - (20 + 2));
  let p := append growslice p txt in
  p ← reslice p (len p + 2);
  p ← set_at p (len p - 2) LF;
  set_at p (len p - 1) LF.

(** ** Lines of a frame

    In the event stream grammar a line ends at a line feed, at a
    carriage return, or at a carriage return followed by a line feed.
    So a line starts at the start of the frame and after every line
    feed and every carriage return (after the carriage return of such a
    pair the line is empty). *)

Definition CR : byte := x0d.

Definition lit_id : list byte := Eval cbv in list_byte_of_string "id:".

Fixpoint starts_with (pre l : list byte) : bool :=
  match pre, l with
  | [], _ => true
  | a :: pre', b :: l' => Byte.eqb a b && starts_with pre' l'
  | _ :: _, [] => false
  end.

Definition is_line_end (b : byte) : bool := Byte.eqb b LF || Byte.eqb b CR.

Fixpoint line_after_end (pre f : list byte) : bool :=
  match f with
  | [] => false
  | b :: r => (is_line_end b && starts_with pre r) || line_after_end pre r
  end.

Definition has_line (pre f : list byte) : bool :=
  starts_with pre f || line_after_end pre f.

Definition has_id_line (f : frame) : bool := has_line lit_id f.

Definition no_LF (l : list byte) : bool :=
  forallb (fun b => negb (Byte.eqb b LF)) l.


(** The number of line feeds the frame ends with. *)
Fixpoint leading_LF (l : list byte) : nat :=
  match l with
  | b :: r => if Byte.eqb b LF then S (leading_LF r) else O
  | [] => O
  end.

Definition trailing_LF (f : frame) : nat := leading_LF (rev f).

(** A decimal numeral of [n]: an optional sign and the digits of the
    magnitude. *)
Definition is_decimal_of (n : Z) (txt : list byte) : Prop :=
  exists ds, txt = (if n <? 0 then MINUS :: ds else ds)
    /\ ds <> [] /\ Forall is_digit ds /\ decimal_value ds = Z.abs n.

(** ** The coordinator: the loop of [run]

    A client is the identity of its channel.  The two cases of the
    [select] that change the registry are functions of the Streamer;
    [chans], what the client channels have carried so far, is not
    touched by them.  The third case, [event := <-s.event], sends on the
    unbuffered client channels: each send needs the handler at its
    receive and may never complete, so that case is part of the step
    relation of the goroutines below. *)

Definition register (cl : client) (s : Streamer) : Streamer :=
  mkStreamer (event s) (<[cl := true]> (clients s)).

Definition deregister (cl : client) (s : Streamer) : Streamer :=
  mkStreamer (event s) (delete cl (clients s)).

(** [for cl := range s.clients]: the keys, in the order of iteration. *)
Definition range_clients (m : gmap client bool) : list client :=
  (map_to_list m).*1.

(** The registry request [select] proceeds with. *)
Inductive ready :=
  | recv_connecting (cl : client)
  | recv_disconnecting (cl : client).

(** [case cl := <-s.connecting] and [case cl := <-s.disconnecting]. *)
Definition run_case (c : ready) (s : Streamer)
    (chans : gmap client (list frame))
    : option (Streamer * gmap client (list frame)) :=
  match c with
  | recv_connecting cl => Some (register cl s, chans)
  | recv_disconnecting cl => Some (deregister cl s, chans)
  end.

(** ** net/http: the response writer *)

Record ResponseWriter := mkW {
  flusher : bool;          (* [w.(http.Flusher)] succeeds *)
  closeNotifier : bool;    (* [w.(http.CloseNotifier)] succeeds *)
  header : gmap string string;
  status : option Z;
  body : list byte;        (* written *)
  flushed : list byte      (* sent to the remote end *)
}.

Definition StatusOK : Z := 200.
Definition StatusNotImplemented : Z := 501.

Definition Header_Set (k v : string) (w : ResponseWriter) : ResponseWriter :=
  mkW (flusher w) (closeNotifier w) (<[k := v]> (header w)) (status w)
      (body w) (flushed w).

Definition Header_Del (k : string) (w : ResponseWriter) : ResponseWriter :=
  mkW (flusher w) (closeNotifier w) (delete k (header w)) (status w)
      (body w) (flushed w).

Definition WriteHeader (code : Z) (w : ResponseWriter) : ResponseWriter :=
  match status w with
  | Some _ => w
  | None => mkW (flusher w) (closeNotifier w) (header w) (Some code)
                (body w) (flushed w)
  end.

Definition Write (p : list byte) (w : ResponseWriter) : ResponseWriter :=
  let w := WriteHeader StatusOK w in
  mkW (flusher w) (closeNotifier w) (header w) (status w)
      (body w ++ p) (flushed w).

Definition Flush (w : ResponseWriter) : ResponseWriter :=
  let w := WriteHeader StatusOK w in
  mkW (flusher w) (closeNotifier w) (header w) (status w) (body w) (body w).

(** [http.Error(w, error, code)] *)
Definition http_Error (w : ResponseWriter) (error : string) (code : Z)
    : ResponseWriter :=
  let w := Header_Del "Content-Length" w in
  let w := Header_Set "Content-Type" "text/plain; charset=utf-8" w in
  let w := Header_Set "X-Content-Type-Options" "nosniff" w in
  let w := WriteHeader code w in
  Write (list_byte_of_string error ++ [LF]) w.

(** ** The connection handler: [ServeHTTP] *)

(** Where the goroutine running [ServeHTTP] is. *)
Inductive place :=
  | send_connecting      (* blocked in [s.connecting <- cl] *)
  | in_select            (* at the [select] of the loop *)
  | send_disconnecting   (* blocked in [s.disconnecting <- cl] *)
  | returned.

Record handler := mkH {
  at_ : place;
  w_ : ResponseWriter;
  got : list frame       (* the frames received from the client channel *)
}.

(** From the entry of [ServeHTTP] to its first communication. *)
Definition ServeHTTP_enter (w : ResponseWriter) : handler :=
  (* We need to be able to flush for SSE *)
  if negb (flusher w) then
    mkH returned (http_Error w "Flushing not supported" StatusNotImplemented) []
  else if negb (closeNotifier w) then
    mkH returned (http_Error w "Closing not supported" StatusNotImplemented) []
  else
    (* Set headers for SSE *)
    let w := Header_Set "Cache-Control" "no-cache" w in
    let w := Header_Set "Connection" "keep-alive" w in
    let w := Header_Set "Content-Type" "text/event-stream" w in
    (* Connect new client *)
    mkH send_connecting w [].

(** [case event := <-cl: w.Write(event); fl.Flush()] *)
Definition ServeHTTP_event (ev : frame) (h : handler) : handler :=
  mkH in_select (Flush (Write ev (w_ h))) (got h ++ [ev]).

(** [case <-close:] up to the send on [s.disconnecting]. *)
Definition ServeHTTP_close (h : handler) : handler :=
  mkH send_disconnecting (w_ h) (got h).

Definition moved (pl : place) (h : handler) : handler :=
  mkH pl (w_ h) (got h).

(** ** The goroutines together

    The coordinator is either at its [select] or inside the fan-out,
    with the clients still to be sent to.  The client channels are
    unbuffered: a send happens together with the receive of the
    handler, which must be at its [select].  [taken] is the history of
    the frames received from [s.event]. *)

Inductive coordinator :=
  | selecting
  | sending (ev : frame) (todo : list client).

Record system := mkSys {
  str : Streamer;
  co : coordinator;
  hs : gmap client handler;
  taken : list frame
}.

Definition init : system := mkSys New selecting ∅ [].

Inductive step : system -> system -> Prop :=
  | step_submit s c H T f :
      (* a producer: [s.event <- p] *)
      step (mkSys s c H T) (mkSys (submit f s) c H T)
  | step_serve s c H T cl w :
      (* a request arrives; [cl] is the channel [make] would return *)
      H !! cl = None ->
      step (mkSys s c H T) (mkSys s c (<[cl := ServeHTTP_enter w]> H) T)
  | step_connect s H T cl h :
      H !! cl = Some h -> at_ h = send_connecting ->
      step (mkSys s selecting H T)
           (mkSys (register cl s) selecting (<[cl := moved in_select h]> H) T)
  | step_close s c H T cl h :
      H !! cl = Some h -> at_ h = in_select ->
      step (mkSys s c H T) (mkSys s c (<[cl := ServeHTTP_close h]> H) T)
  | step_disconnect s H T cl h :
      H !! cl = Some h -> at_ h = send_disconnecting ->
      step (mkSys s selecting H T)
           (mkSys (deregister cl s) selecting (<[cl := moved returned h]> H) T)
  | step_take rest m H T ev todo :
      todo ≡ₚ range_clients m ->
      step (mkSys (mkStreamer (ev :: rest) m) selecting H T)
           (mkSys (mkStreamer rest m) (sending ev todo) H (T ++ [ev]))
  | step_deliver s H T ev cl todo h :
      H !! cl = Some h -> at_ h = in_select ->
      step (mkSys s (sending ev (cl :: todo)) H T)
           (mkSys s (sending ev todo) (<[cl := ServeHTTP_event ev h]> H) T)
  | step_done s H T ev :
      step (mkSys s (sending ev []) H T) (mkSys s selecting H T).

Definition reachable (σ : system) : Prop := rtc step init σ.

(** The coordinator is in the fan-out, sending to a client whose handler
    is itself sending on [s.disconnecting]. *)
Definition blocked (ev : frame) (cl : client) (todo : list client)
    (σ : system) : Prop :=
  co σ = sending ev (cl :: todo)
  /\ exists h, hs σ !! cl = Some h /\ at_ h = send_disconnecting.

(** A transport with both capabilities and nothing written yet. *)
Definition plain_writer : ResponseWriter := mkW true true ∅ None [] [].

(** The frame of [SendString("", "greeting", "hi")]. *)
Definition greeting : frame :=
  Eval cbv in wire (list_byte_of_string "greeting") (list_byte_of_string "hi").

(** A registered client has a handler that is in its loop: at the
    [select] or sending on [s.disconnecting]. *)
Definition registered_live (σ : system) : Prop :=
  forall cl, is_Some (clients (str σ) !! cl) ->
    exists h, hs σ !! cl = Some h
      /\ (at_ h = in_select \/ at_ h = send_disconnecting).

(** The places inside the loop of [ServeHTTP]. *)
Definition in_loop (pl : place) : bool :=
  match pl with
  | in_select | send_disconnecting => true
  | send_connecting | returned => false
  end.

(** One client has connected and has been sent one frame. *)
Definition one_client : system :=
  mkSys (mkStreamer [] (<[1%nat := true]> ∅)) selecting
        (<[1%nat := ServeHTTP_event greeting
                       (moved in_select (ServeHTTP_enter plain_writer))]>
           (<[1%nat := moved in_select (ServeHTTP_enter plain_writer)]>
              (<[1%nat := ServeHTTP_enter plain_writer]> ∅)))
        [greeting].

(** [one_client] just before the coordinator leaves the fan-out. *)
Definition one_client_sent : system :=
  mkSys (str one_client) (sending greeting []) (hs one_client) (taken one_client).

(** The headers [ServeHTTP] sets before it registers. *)
Definition sse_headers (w : ResponseWriter) : Prop :=
  header w !! "Cache-Control" = Some "no-cache"
  /\ header w !! "Connection" = Some "keep-alive"
  /\ header w !! "Content-Type" = Some "text/event-stream".

(** Clients 1 and 2 are registered, the connection of client 1 has
    closed and its handler is sending on [s.disconnecting]; the
    coordinator has taken a frame from [s.event] and is at the first
    send of the fan-out, to client 1. *)
Definition fan_out_at_closing_client : system :=
  mkSys (mkStreamer [] (<[2%nat := true]> (<[1%nat := true]> ∅)))
        (sending greeting [1%nat; 2%nat])
        (<[1%nat := ServeHTTP_close (moved in_select (ServeHTTP_enter plain_writer))]>
           (<[2%nat := moved in_select (ServeHTTP_enter plain_writer)]>
              (<[2%nat := ServeHTTP_enter plain_writer]>
                 (<[1%nat := moved in_select (ServeHTTP_enter plain_writer)]>
                    (<[1%nat := ServeHTTP_enter plain_writer]> ∅)))))
        [greeting].

(** ** Invariants of the reachable states *)

(** The registry, read off the handlers. *)
Definition registry_of_handlers (σ : system) : Prop :=
  forall cl, clients (str σ) !! cl
    = match hs σ !! cl with
      | Some h => if in_loop (at_ h) then Some true else None
      | None => None
      end.

(** What the handlers have received against the frames taken: inside a
    fan-out the clients still to be sent to lack the last frame. *)
Definition in_order (σ : system) : Prop :=
  match co σ with
  | selecting =>
      forall cl h, hs σ !! cl = Some h -> got h `sublist_of` taken σ
  | sending ev todo =>
      NoDup todo /\ exists T0, taken σ = T0 ++ [ev]
        /\ forall cl h, hs σ !! cl = Some h ->
             got h `sublist_of` (if decide (cl ∈ todo) then T0 else taken σ)
  end.

(** Inside a fan-out, the registered clients already sent to. *)
Definition fanned_out (σ : system) : Prop :=
  forall ev todo, co σ = sending ev todo ->
    forall cl, is_Some (clients (str σ) !! cl) -> cl ∉ todo ->
      exists h l, hs σ !! cl = Some h /\ got h = l ++ [ev].

(** The handlers that have not returned carry the headers. *)
Definition streaming_headers (σ : system) : Prop :=
  forall cl h, hs σ !! cl = Some h -> at_ h <> returned -> sse_headers (w_ h).

(** From [h] to [h'] the handler received the frames [fs], wrote them
    and flushed. *)
Definition wrote (h h' : handler) (fs : list frame) : Prop :=
  got h' = got h ++ fs
  /\ body (w_ h') = body (w_ h) ++ concat fs
  /\ (fs = [] -> w_ h' = w_ h)
  /\ (fs <> [] -> flushed (w_ h') = body (w_ h') /\ is_Some (status (w_ h'))).

(** A handler waiting to register has received nothing, and a fan-out
    only has registered clients to send to. *)
Definition not_yet_served (σ : system) : Prop :=
  (forall cl h, hs σ !! cl = Some h -> at_ h = send_connecting -> got h = [])
  /\ (forall ev todo, co σ = sending ev todo ->
        forall k, k ∈ todo -> is_Some (clients (str σ) !! k)).

(** The frames a client may still get, relative to the frames [T']
    taken since a given state. *)
Definition since (cl : client) (c : coordinator) (T' g : list frame) : Prop :=
  match c with
  | selecting => g `sublist_of` T'
  | sending ev todo =>
      if decide (cl ∈ todo)
      then NoDup todo /\ exists T0, T' = T0 ++ [ev] /\ g `sublist_of` T0
      else g `sublist_of` T'
  end.

(** * Properties *)

(** ** Properties of slices *)

Lemma zlen_app {A} (l k : list A) : zlen (l ++ k) = zlen l + zlen k.
Proof. unfold zlen. rewrite length_app. lia. Qed.

Lemma zlen_cons {A} (x : A) (l : list A) : zlen (x :: l) = 1 + zlen l.
Proof. unfold zlen. simpl length. lia. Qed.

Lemma zlen_nonneg {A} (l : list A) : 0 <= zlen l.
Proof. unfold zlen. lia. Qed.

Lemma zlen_replicate {A} n (x : A) : zlen (replicate n x) = Z.of_nat n.
Proof. unfold zlen. by rewrite length_replicate. Qed.

Lemma splice_fits (pre mid post src : list byte) i :
  zlen pre = i -> length mid = length src ->
  splice (pre ++ mid ++ post) i src = pre ++ src ++ post.
Proof.
  intros Hi Hm. unfold splice, zlen in *.
  replace (Z.to_nat i) with (length pre) by lia.
  rewrite take_app_length. f_equal. f_equal.
  rewrite drop_app_add'; [|done]. rewrite <- Hm. by rewrite drop_app_length.
Qed.

Lemma copy_at_fits (pre mid post src : list byte) L i :
  zlen pre = i -> length mid = length src -> i + zlen src <= L ->
  copy_at (Slice (pre ++ mid ++ post) L) i src
  = Some (Slice (pre ++ src ++ post) L, zlen src).
Proof.
  intros Hi Hm HL. unfold copy_at. simpl.
  pose proof (zlen_nonneg pre). pose proof (zlen_nonneg src).
  destruct (Z.leb_spec 0 i); [|lia]. destruct (Z.leb_spec i L); [|lia]. simpl.
  rewrite Z.min_l by lia. unfold zlen at 1. rewrite Nat2Z.id, firstn_all.
  by rewrite splice_fits.
Qed.

Lemma set_at_fits (pre post : list byte) x b L i :
  zlen pre = i -> i < L ->
  set_at (Slice (pre ++ x :: post) L) i b = Some (Slice (pre ++ b :: post) L).
Proof.
  intros Hi HL. unfold set_at. simpl. pose proof (zlen_nonneg pre).
  destruct (Z.leb_spec 0 i); [|lia]. destruct (Z.ltb_spec i L); [|lia]. simpl.
  do 2 f_equal. unfold zlen in Hi.
  replace (Z.to_nat i) with (length pre + 0)%nat by lia.
  by rewrite insert_app_r.
Qed.

(** ** The layout [format] builds *)

Lemma zeros_add n m : 0 <= n -> 0 <= m -> zeros (n + m) = zeros n ++ zeros m.
Proof. intros. unfold zeros. rewrite Z2Nat.inj_add by lia. apply replicate_add. Qed.

Lemma zlen_zeros n : 0 <= n -> zlen (zeros n) = n.
Proof. intros. unfold zeros. rewrite zlen_replicate. lia. Qed.

Lemma length_zeros n : length (zeros n) = Z.to_nat n.
Proof. unfold zeros. by rewrite length_replicate. Qed.

Lemma make_zeros l : 0 <= l -> make l = Some (Slice (zeros l) l).
Proof. intros. unfold make. by destruct (Z.ltb_spec l 0); [lia|]. Qed.

Ltac len_solve :=
  rewrite ?zlen_app, ?zlen_cons, ?zlen_zeros by lia;
  change (zlen lit_data) with 4 in *; change (zlen lit_end) with 2 in *;
  change (zlen lit_event) with 6 in *; change (zlen (@nil byte)) with 0 in *;
  lia.

Lemma format_tail (pre : list byte) dataLen :
  let L := zlen pre + 6 + (if 0 <? dataLen then 1 + dataLen else 0) in
  ('(p, n) ← copy_at (Slice (pre ++ zeros (L - zlen pre)) L) (zlen pre) lit_data;
   let i := zlen pre + n in
   '(p, i) ← (if 0 <? dataLen then
                p ← set_at p i COLON;
                Some (p, i + (1 + dataLen))
              else Some (p, i));
   '(p, _) ← copy_at p i lit_end;
   Some p)
  = Some (Slice (pre ++ lit_data ++ data_gap dataLen ++ lit_end) L).
Proof.
  intros L. pose proof (zlen_nonneg pre) as Hpre. unfold data_gap.
  destruct (Z.ltb_spec 0 dataLen) as [Hd|Hd].
  - assert (HL : L = zlen pre + 6 + (1 + dataLen)) by (subst L; lia).
    replace (zeros (L - zlen pre))
      with (zeros 4 ++ x00 :: zeros dataLen ++ zeros 2).
    2:{ replace (L - zlen pre) with (4 + (1 + (dataLen + 2))) by lia.
        rewrite (zeros_add 4), (zeros_add 1), (zeros_add dataLen) by lia. done. }
    rewrite (copy_at_fits pre (zeros 4) _ lit_data) by (done || len_solve).
    cbn [mbind option_bind]. change (zlen lit_data) with 4.
    rewrite (app_assoc pre lit_data).
    rewrite (set_at_fits (pre ++ lit_data) _ x00 COLON)
      by len_solve.
    cbn [mbind option_bind].
    replace (pre ++ lit_data) with ((pre ++ lit_data) ++ []) at 1 by apply app_nil_r.
    rewrite <- (app_assoc (pre ++ lit_data) [] _). cbn [app].
    rewrite (app_comm_cons (zeros dataLen) (zeros 2) COLON), app_assoc.
    replace ((pre ++ lit_data) ++ COLON :: zeros dataLen)
      with (((pre ++ lit_data) ++ COLON :: zeros dataLen) ++ [])
      by apply app_nil_r.
    rewrite <- (app_assoc _ [] (zeros 2)).
    replace (zeros 2) with (zeros 2 ++ []) by apply app_nil_r.
    rewrite (copy_at_fits _ (zeros 2) [] lit_end);
      [| len_solve | done | len_solve ].
    cbn [mbind option_bind]. f_equal. f_equal.
    rewrite !app_nil_r, <- !app_assoc. done.
  - assert (HL : L = zlen pre + 6) by (subst L; lia).
    replace (zeros (L - zlen pre)) with (zeros 4 ++ zeros 2 ++ [])
      by (replace (L - zlen pre) with 6 by lia; done).
    rewrite (copy_at_fits pre (zeros 4) _ lit_data) by (done || len_solve).
    cbn [mbind option_bind]. change (zlen lit_data) with 4.
    rewrite (app_assoc pre lit_data).
    rewrite (copy_at_fits _ (zeros 2) [] lit_end);
      [| len_solve | done | len_solve ].
    cbn [mbind option_bind]. by rewrite <- app_assoc.
Qed.

Lemma zlen_layout event dataLen :
  zlen (layout event dataLen)
  = zlen (event_line event) + 6 + (if 0 <? dataLen then 1 + dataLen else 0).
Proof.
  unfold layout, data_gap. destruct (Z.ltb_spec 0 dataLen); len_solve.
Qed.

Lemma format_layout id event dataLen :
  format id event dataLen
  = Some (Slice (layout event dataLen) (zlen (layout event dataLen))).
Proof.
  rewrite zlen_layout. unfold format, layout.
  set (D := if 0 <? dataLen then 1 + dataLen else 0).
  assert (HD : 0 <= D) by (subst D; destruct (Z.ltb_spec 0 dataLen); lia).
  destruct event as [|e ev].
  - change (0 <? zlen (@nil byte)) with false. cbv zeta. cbn [event_line app].
    replace (if 0 <? dataLen then 6 + (1 + dataLen) else 6) with (6 + D)
      by (subst D; destruct (0 <? dataLen); lia).
    rewrite make_zeros by lia. cbn [mbind option_bind].
    pose proof (format_tail [] dataLen) as T. cbv zeta in T.
    change (zlen (@nil byte)) with 0 in *. fold D in T. cbn [app] in T.
    replace (0 + 6 + D - 0) with (6 + D) in T by lia.
    replace (0 + 6 + D) with (6 + D) in T by lia.
    rewrite T. by replace (0 + 6 + D) with (6 + D) by lia.
  - set (event := e :: ev) in *.
    assert (He : 0 < zlen event) by (subst event; rewrite zlen_cons; pose proof (zlen_nonneg ev); lia).
    destruct (Z.ltb_spec 0 (zlen event)) as [_|]; [|lia]. cbv zeta.
    replace (if 0 <? dataLen then 6 + (6 + zlen event + 1) + (1 + dataLen)
             else 6 + (6 + zlen event + 1))
      with (6 + (zlen event + (1 + (6 + D))))
      by (subst D; destruct (0 <? dataLen); lia).
    rewrite make_zeros by lia. cbn [mbind option_bind].
    rewrite (zeros_add 6), (zeros_add (zlen event)), (zeros_add 1) by lia.
    lazymatch goal with
    | |- context [copy_at (Slice ?a _) 0 lit_event] => change a with ([] ++ a)
    end.
    rewrite (copy_at_fits [] (zeros 6) _ lit_event) by (done || len_solve).
    cbn [mbind option_bind app].
    rewrite (copy_at_fits lit_event (zeros (zlen event)) _ event);
      [| done | rewrite length_zeros; unfold zlen; lia | len_solve ].
    cbn [mbind option_bind].
    rewrite (app_assoc lit_event event).
    change (zeros 1 ++ zeros (6 + D)) with (x00 :: zeros (6 + D)).
    rewrite (set_at_fits (lit_event ++ event) _ x00 LF) by len_solve.
    cbn [mbind option_bind].
    replace (event_line event) with (lit_event ++ event ++ [LF]) by done.
    pose proof (format_tail (lit_event ++ event ++ [LF]) dataLen) as T.
    cbv zeta in T. fold D in T.
    replace (zlen (lit_event ++ event ++ [LF])) with (6 + zlen event + 1) in T
      by len_solve.
    replace (6 + zlen event + 1 + 6 + D - (6 + zlen event + 1)) with (6 + D) in T by lia.
    replace (6 + zlen event + 1 + 6 + D) with (6 + (zlen event + (1 + (6 + D)))) in T by lia.
    replace ((lit_event ++ event) ++ LF :: zeros (6 + D))
      with ((lit_event ++ event ++ [LF]) ++ zeros (6 + D))
      by (rewrite <- !app_assoc; done).
    replace (0 + (6 + zlen event) + 1) with (6 + zlen event + 1) by lia.
    rewrite <- !app_assoc in *. cbn [app] in *.
    rewrite T. do 2 f_equal. len_solve.
Qed.

Lemma bytes_full (a : list byte) : bytes (Slice a (zlen a)) = a.
Proof. unfold bytes, zlen. simpl. by rewrite Nat2Z.id, firstn_all. Qed.

Lemma bytes_prefix (a b : list byte) : bytes (Slice (a ++ b) (zlen a)) = a.
Proof. unfold bytes, zlen. simpl. by rewrite Nat2Z.id, take_app_length. Qed.

(** ** What the producers submit *)

Lemma fill_in_data id event (data : list byte) :
  (p ← format id event (zlen data);
   '(p, _) ← copy_at p (len p - (2 + zlen data)) data;
   Some p)
  = Some (Slice (wire event data) (zlen (wire event data))).
Proof.
  rewrite format_layout. cbn [mbind option_bind len].
  unfold layout, wire, data_gap.
  destruct data as [|d data].
  - change (0 <? zlen (@nil byte)) with false. cbn [data_field].
    rewrite !app_assoc.
    replace ((event_line event ++ lit_data) ++ [])
      with ((event_line event ++ lit_data) ++ [] ++ []) at 1 by done.
    rewrite <- (app_assoc _ ([] ++ []) lit_end), <- (app_assoc [] [] lit_end).
    rewrite (copy_at_fits _ [] lit_end []) by (done || len_solve).
    cbn [mbind option_bind app]. by rewrite app_nil_r.
  - set (dat := d :: data).
    assert (Hd : 0 < zlen dat)
      by (subst dat; rewrite zlen_cons; pose proof (zlen_nonneg data); lia).
    destruct (Z.ltb_spec 0 (zlen dat)); [|lia].
    replace (data_field dat) with (COLON :: dat) by done.
    replace (event_line event ++ lit_data ++ (COLON :: zeros (zlen dat)) ++ lit_end)
      with ((event_line event ++ lit_data ++ [COLON]) ++ zeros (zlen dat) ++ lit_end)
      by (rewrite <- !app_assoc; done).
    rewrite (copy_at_fits _ (zeros (zlen dat)) lit_end dat);
      [| len_solve | rewrite length_zeros; unfold zlen; lia | len_solve ].
    cbn [mbind option_bind]. do 2 f_equal.
    + rewrite <- !app_assoc. done.
    + len_solve.
Qed.

Lemma SendBytes_wire id event data s :
  SendBytes id event data s = Some (submit (wire event data) s).
Proof.
  unfold SendBytes. pose proof (fill_in_data id event data) as F.
  destruct (format id event (zlen data)) as [p|]; [|done].
  cbn [mbind option_bind] in *.
  destruct (copy_at p (len p - (2 + zlen data)) data) as [[q n]|]; [|done].
  cbn [mbind option_bind] in *. injection F as ->.
  unfold send_event, submit. by rewrite bytes_full.
Qed.

Lemma SendString_wire id event data s :
  SendString id event data s = Some (submit (wire event data) s).
Proof. exact (SendBytes_wire id event data s). Qed.

(** ** Decimal formatting *)

Lemma digit_value_digit d : 0 <= d < 10 -> digit_value (digit d) = d.
Proof.
  intros H.
  assert (d = 0 \/ d = 1 \/ d = 2 \/ d = 3 \/ d = 4 \/ d = 5 \/ d = 6 \/
          d = 7 \/ d = 8 \/ d = 9) as Hd by lia.
  repeat destruct Hd as [->|Hd]; try subst d; reflexivity.
Qed.

Lemma decimal_value_snoc ds b :
  decimal_value (ds ++ [b]) = 10 * decimal_value ds + digit_value b.
Proof. unfold decimal_value. by rewrite fold_left_app. Qed.

Lemma utoa_loop_spec fuel : forall u acc,
  0 <= u < 10 * 2 ^ Z.of_nat fuel ->
  exists ds, utoa_loop fuel u acc = ds ++ acc
    /\ decimal_value ds = u
    /\ Forall is_digit ds
    /\ ds <> []
    /\ forall k : nat, (1 <= k)%nat -> u < 10 ^ Z.of_nat k -> (length ds <= k)%nat.
Proof.
  assert (Hone : forall u acc, 0 <= u < 10 ->
    digit (u mod 10) :: acc = [digit (u mod 10)] ++ acc
    /\ decimal_value [digit (u mod 10)] = u
    /\ Forall is_digit [digit (u mod 10)]
    /\ [digit (u mod 10)] <> []
    /\ forall k : nat, (1 <= k)%nat -> u < 10 ^ Z.of_nat k ->
         (length [digit (u mod 10)] <= k)%nat).
  { intros u acc Hu. rewrite Z.mod_small by lia.
    split_and!; try done.
    - unfold decimal_value. simpl fold_left. rewrite digit_value_digit; lia.
    - apply Forall_singleton. unfold is_digit. rewrite digit_value_digit; lia. }
  induction fuel as [|fuel IH]; intros u acc Hu.
  - exists [digit (u mod 10)]. apply Hone. simpl in Hu. lia.
  - cbn [utoa_loop]. destruct (Z.eqb_spec (u / 10) 0) as [Hz|Hz].
    + exists [digit (u mod 10)]. apply Hone.
      pose proof (Z.div_mod u 10 ltac:(lia)).
      pose proof (Z.mod_pos_bound u 10 ltac:(lia)). lia.
    + assert (Hq : 0 <= u / 10 < 10 * 2 ^ Z.of_nat fuel).
      { rewrite Nat2Z.inj_succ, Z.pow_succ_r in Hu by lia.
        split; [apply Z.div_pos; lia|].
        apply Z.div_lt_upper_bound; lia. }
      destruct (IH (u / 10) (digit (u mod 10) :: acc) Hq)
        as (ds & Heq & Hval & Hdig & _ & Hlen).
      exists (ds ++ [digit (u mod 10)]).
      pose proof (Z.mod_pos_bound u 10 ltac:(lia)) as Hm.
      split_and!.
      * rewrite Heq, <- app_assoc. done.
      * rewrite decimal_value_snoc, Hval, digit_value_digit by lia.
        pose proof (Z.div_mod u 10 ltac:(lia)). lia.
      * apply Forall_app. split; [done|].
        apply Forall_singleton. unfold is_digit. rewrite digit_value_digit; lia.
      * by destruct ds.
      * intros k Hk Hu10. rewrite length_app. simpl length.
        destruct k as [|[|k]]; [lia| |].
        -- change (10 ^ Z.of_nat 1) with 10 in Hu10.
           exfalso. apply Hz. apply Z.div_small. lia.
        -- assert (length ds <= S k)%nat; [|lia].
           apply Hlen; [lia|].
           rewrite (Nat2Z.inj_succ (S k)), Z.pow_succ_r in Hu10 by lia.
           apply Z.div_lt_upper_bound; lia.
Qed.

Lemma FormatUint_spec u :
  0 <= u ->
  decimal_value (FormatUint u) = u
  /\ Forall is_digit (FormatUint u)
  /\ FormatUint u <> []
  /\ forall k : nat, (1 <= k)%nat -> u < 10 ^ Z.of_nat k ->
       (length (FormatUint u) <= k)%nat.
Proof.
  intros Hu. unfold FormatUint.
  destruct (utoa_loop_spec (Z.to_nat (Z.log2 u)) u []) as (ds & Heq & H).
  - rewrite Z2Nat.id by apply Z.log2_nonneg.
    destruct (Z.eq_dec u 0) as [->|Hne]; [simpl; lia|].
    pose proof (Z.log2_spec u ltac:(lia)) as [_ Hlt].
    rewrite Z.pow_succ_r in Hlt by apply Z.log2_nonneg.
    pose proof (Z.pow_pos_nonneg 2 (Z.log2 u) ltac:(lia) (Z.log2_nonneg u)). lia.
  - rewrite Heq, app_nil_r. exact H.
Qed.

Lemma zlen_FormatUint u : 0 <= u < 2 ^ 64 -> 1 <= zlen (FormatUint u) <= 20.
Proof.
  intros Hu. destruct (FormatUint_spec u) as (_ & _ & Hne & Hlen); [lia|].
  specialize (Hlen 20%nat ltac:(lia)). unfold zlen.
  destruct (FormatUint u); [done|]. simpl length in *.
  assert (u < 10 ^ Z.of_nat 20) by (change (2 ^ 64) with 18446744073709551616 in Hu;
    change (10 ^ Z.of_nat 20) with 100000000000000000000; lia).
  specialize (Hlen ltac:(done)). lia.
Qed.

(** The magnitude [FormatInt] formats for a negative [int64]. *)
Lemma uint64_neg_uint64 i :
  - 2 ^ 63 <= i < 0 -> uint64 (- uint64 i) = - i.
Proof.
  unfold uint64. change (2 ^ 63) with 9223372036854775808.
  change (2 ^ 64) with 18446744073709551616. intros H.
  replace (i mod 18446744073709551616) with (i + 18446744073709551616).
  2:{ apply Z.mod_unique with (-1); lia. }
  symmetry. apply Z.mod_unique with (-1); lia.
Qed.

Lemma length_nonempty {A} (l : list A) : l <> [] -> (1 <= length l)%nat.
Proof. destruct l; [done|simpl; lia]. Qed.

Lemma FormatInt_spec i :
  - 2 ^ 63 <= i < 2 ^ 63 ->
  exists ds, FormatInt i = (if i <? 0 then MINUS :: ds else ds)
    /\ decimal_value ds = Z.abs i
    /\ Forall is_digit ds
    /\ (1 <= length ds <= 19)%nat.
Proof.
  intros Hi. unfold FormatInt. cbv zeta.
  assert (H19 : 2 ^ 63 < 10 ^ Z.of_nat 19) by (vm_compute; done).
  assert (H63 : 2 ^ 63 < 2 ^ 64) by (vm_compute; done).
  destruct (Z.ltb_spec i 0) as [Hneg|Hpos].
  - rewrite uint64_neg_uint64 by lia.
    destruct (FormatUint_spec (- i)) as (Hv & Hd & Hne & Hlen); [lia|].
    exists (FormatUint (- i)). split_and!; [done|lia|done|..].
    + by apply length_nonempty.
    + apply Hlen; [lia|].
      assert (- i <= 2 ^ 63) by lia.
      assert (- i <> 10 ^ Z.of_nat 19 - 1) by lia. lia.
  - unfold uint64. rewrite Z.mod_small by lia.
    destruct (FormatUint_spec i) as (Hv & Hd & Hne & Hlen); [lia|].
    exists (FormatUint i). split_and!; [done|lia|done|..].
    + by apply length_nonempty.
    + apply Hlen; lia.
Qed.

Lemma zlen_FormatInt i : - 2 ^ 63 <= i < 2 ^ 63 -> 1 <= zlen (FormatInt i) <= 20.
Proof.
  intros Hi. destruct (FormatInt_spec i Hi) as (ds & -> & _ & _ & Hlen).
  unfold zlen. destruct (i <? 0); simpl length; lia.
Qed.

(** ** The numeric producers *)

Lemma two_more (l : list byte) :
  (2 <= length l)%nat -> exists x y r, l = x :: y :: r.
Proof. destruct l as [|x [|y r]]; simpl; intros; try lia. eauto. Qed.

Lemma reslice_ok (a : list byte) L n :
  0 <= n <= zlen a -> reslice (Slice a L) n = Some (Slice a n).
Proof.
  intros H. unfold reslice, cap. cbn [arr].
  destruct (Z.leb_spec 0 n); [|lia]. by destruct (Z.leb_spec n (zlen a)); [|lia].
Qed.

Lemma append_in_place growslice (pre rest txt : list byte) :
  (length txt <= length rest)%nat ->
  append growslice (Slice (pre ++ rest) (zlen pre)) txt
  = Slice (pre ++ txt ++ drop (length txt) rest) (zlen pre + zlen txt).
Proof.
  intros H. unfold append, cap. cbn [arr len].
  destruct (Z.leb_spec (zlen pre + zlen txt) (zlen (pre ++ rest))) as [_|Hlt].
  - f_equal. rewrite <- (take_drop (length txt) rest) at 1.
    apply splice_fits; [done|]. rewrite length_take. lia.
  - rewrite zlen_app in Hlt. unfold zlen in Hlt. lia.
Qed.

Lemma numeric_steps_spec growslice id event txt :
  1 <= zlen txt <= 20 ->
  exists junk,
    numeric_steps growslice id event txt
    = Some (Slice (wire event txt ++ junk) (zlen (wire event txt)))
    /\ zlen (wire event txt ++ junk) = zlen (layout event 20).
Proof.
  intros Htxt. unfold numeric_steps. rewrite format_layout.
  cbn [mbind option_bind len]. unfold layout, data_gap.
  change (0 <? 20) with true. cbv iota.
  set (pre := event_line event ++ lit_data ++ [COLON]).
  replace (event_line event ++ lit_data ++ (COLON :: zeros 20) ++ lit_end)
    with (pre ++ zeros 20 ++ lit_end) by (subst pre; rewrite <- !app_assoc; done).
  set (rest := zeros 20 ++ lit_end).
  assert (Hrest : length rest = 22%nat) by done.
  assert (Hcap : zlen (pre ++ rest) = zlen pre + 22)
    by (rewrite zlen_app; unfold zlen; rewrite Hrest; lia).
  pose proof (zlen_nonneg pre) as Hpre.
  rewrite reslice_ok by lia. cbn [mbind option_bind]. cbv zeta.
  replace (zlen (pre ++ rest) - (20 + 2)) with (zlen pre) by lia.
  rewrite append_in_place by (unfold zlen in Htxt; lia).
  destruct (two_more (drop (length txt) rest)) as (x & y & r & Hr).
  { rewrite length_drop. unfold zlen in *. lia. }
  rewrite Hr.
  assert (Hfull : zlen (pre ++ txt ++ x :: y :: r) = zlen pre + 22).
  { rewrite <- Hr, !zlen_app. unfold zlen. rewrite length_drop, Hrest.
    unfold zlen in Htxt. lia. }
  cbn [len]. rewrite reslice_ok by lia.
  cbn [mbind option_bind len].
  rewrite (app_assoc pre txt).
  rewrite (set_at_fits (pre ++ txt) _ x LF) by len_solve.
  cbn [mbind option_bind len].
  replace ((pre ++ txt) ++ LF :: y :: r) with (((pre ++ txt) ++ [LF]) ++ y :: r)
    by (rewrite <- !app_assoc; done).
  rewrite (set_at_fits _ _ y LF) by len_solve.
  exists r.
  assert (Hw : wire event txt = ((pre ++ txt) ++ [LF]) ++ [LF]).
  { unfold wire. subst pre. destruct txt; [unfold zlen in Htxt; simpl in Htxt; lia|].
    cbn [data_field]. rewrite <- !app_assoc. done. }
  rewrite Hw. split.
  - do 2 f_equal.
    + rewrite <- !app_assoc. done.
    + len_solve.
  - transitivity (zlen (pre ++ txt ++ x :: y :: r)); [len_solve|].
    by rewrite Hfull, Hcap.
Qed.

Lemma SendInt_steps growslice id event n s :
  SendInt growslice id event n s
  = (p ← numeric_steps growslice id event (FormatInt n); Some (send_event p s)).
Proof.
  unfold SendInt, numeric_steps, AppendInt, maxIntToStrLen.
  destruct (format id event 20) as [p|]; [|done]. cbn [mbind option_bind].
  destruct (reslice p _) as [q|]; [|done]. cbn [mbind option_bind]. cbv zeta.
  destruct (reslice (append _ _ _) _) as [r|]; [|done]. cbn [mbind option_bind].
  by destruct (set_at r _ _) as [t|].
Qed.

Lemma SendUint_steps growslice id event u s :
  SendUint growslice id event u s
  = (p ← numeric_steps growslice id event (FormatUint u); Some (send_event p s)).
Proof.
  unfold SendUint, numeric_steps, AppendUint, maxUintToStrLen.
  destruct (format id event 20) as [p|]; [|done]. cbn [mbind option_bind].
  destruct (reslice p _) as [q|]; [|done]. cbn [mbind option_bind]. cbv zeta.
  destruct (reslice (append _ _ _) _) as [r|]; [|done]. cbn [mbind option_bind].
  by destruct (set_at r _ _) as [t|].
Qed.

Lemma numeric_send growslice id event txt s :
  1 <= zlen txt <= 20 ->
  (p ← numeric_steps growslice id event txt; Some (send_event p s))
  = Some (submit (wire event txt) s).
Proof.
  intros H. destruct (numeric_steps_spec growslice id event txt H) as (junk & -> & _).
  cbn [mbind option_bind]. unfold send_event, submit. by rewrite bytes_prefix.
Qed.

Lemma SendInt_wire growslice id event n s :
  - 2 ^ 63 <= n < 2 ^ 63 ->
  SendInt growslice id event n s = Some (submit (wire event (FormatInt n)) s).
Proof.
  intros H. rewrite SendInt_steps. apply numeric_send. by apply zlen_FormatInt.
Qed.

Lemma SendUint_wire growslice id event u s :
  0 <= u < 2 ^ 64 ->
  SendUint growslice id event u s = Some (submit (wire event (FormatUint u)) s).
Proof.
  intros H. rewrite SendUint_steps. apply numeric_send. by apply zlen_FormatUint.
Qed.

Lemma FormatInt_decimal n : - 2 ^ 63 <= n < 2 ^ 63 -> is_decimal_of n (FormatInt n).
Proof.
  intros H. destruct (FormatInt_spec n H) as (ds & Heq & Hv & Hd & Hl).
  exists ds. split_and!; try done. destruct ds; [simpl in Hl; lia|done].
Qed.

Lemma FormatUint_decimal u : 0 <= u -> is_decimal_of u (FormatUint u).
Proof.
  intros H. destruct (FormatUint_spec u H) as (Hv & Hd & Hne & _).
  exists (FormatUint u). destruct (Z.ltb_spec u 0); [lia|].
  split_and!; try done. lia.
Qed.

(** * The claims about the frame encoder *)

(** C3.  Encoding the event type "" and the payload "" gives exactly
    "data\n\n"; the type "update" and the payload "42" give exactly
    "event:update\ndata:42\n\n"; for every event type, an empty payload
    leaves out the ':' after "data", and a payload of one byte or more
    has it, followed by the payload. *)
Theorem encoder_frames (id event : list byte) (x : byte) (payload : list byte)
    (s : Streamer) :
  SendBytes id [] [] s
    = Some (submit (list_byte_of_string "data" ++ [LF; LF]) s)
  /\ SendBytes id (list_byte_of_string "update") (list_byte_of_string "42") s
    = Some (submit (list_byte_of_string "event:update" ++ [LF]
                    ++ list_byte_of_string "data:42" ++ [LF; LF]) s)
  /\ SendBytes id [] [x] s
    = Some (submit (list_byte_of_string "data:" ++ [x] ++ [LF; LF]) s)
  /\ SendBytes id event [] s
    = Some (submit (event_line event ++ list_byte_of_string "data" ++ [LF; LF]) s)
  /\ SendBytes id event (x :: payload) s
    = Some (submit (event_line event ++ list_byte_of_string "data"
                    ++ [COLON] ++ (x :: payload) ++ [LF; LF]) s).
Proof.
  rewrite !SendBytes_wire. unfold wire. split_and!; done.
Qed.

(** ** Line feeds at the end of a frame *)

Lemma trailing_LF_snoc_LF f : trailing_LF (f ++ [LF]) = S (trailing_LF f).
Proof. unfold trailing_LF. by rewrite rev_app_distr. Qed.

Lemma trailing_LF_snoc_other f b :
  Byte.eqb b LF = false -> trailing_LF (f ++ [b]) = O.
Proof. intros H. unfold trailing_LF. rewrite rev_app_distr. simpl. by rewrite H. Qed.

Lemma trailing_LF_terminated body :
  trailing_LF (body ++ lit_end) = S (S (trailing_LF body)).
Proof.
  change lit_end with ([LF] ++ [LF]).
  by rewrite app_assoc, !trailing_LF_snoc_LF.
Qed.

Lemma no_LF_app a b : no_LF (a ++ b) = no_LF a && no_LF b.
Proof. unfold no_LF. apply forallb_app. Qed.

Lemma no_LF_last l b : no_LF (l ++ [b]) = true -> Byte.eqb b LF = false.
Proof.
  rewrite no_LF_app. intros [_ H]%andb_prop. simpl in H.
  by destruct (Byte.eqb b LF).
Qed.

Lemma is_digit_not_LF b : is_digit b -> Byte.eqb b LF = false.
Proof.
  intros H. destruct (Byte.eqb b LF) eqn:E; [|done].
  apply Byte.byte_dec_bl in E. subst b. unfold is_digit in H. vm_compute in H.
  destruct H as [H _]. by exfalso; apply H.
Qed.

Lemma no_LF_digits ds : Forall is_digit ds -> no_LF ds = true.
Proof.
  induction 1 as [|b ds Hb _ IH]; [done|].
  unfold no_LF in *. simpl. by rewrite is_digit_not_LF, IH.
Qed.

Lemma no_LF_FormatUint u : 0 <= u -> no_LF (FormatUint u) = true.
Proof. intros H. apply no_LF_digits. by apply FormatUint_spec. Qed.

Lemma no_LF_FormatInt n : - 2 ^ 63 <= n < 2 ^ 63 -> no_LF (FormatInt n) = true.
Proof.
  intros H. destruct (FormatInt_spec n H) as (ds & -> & _ & Hd & _).
  apply no_LF_digits in Hd. by destruct (n <? 0).
Qed.

(** A payload that is not empty and holds no line feed: the frame ends
    with exactly the two line feeds of the terminator. *)
Lemma trailing_LF_wire_plain event txt :
  txt <> [] -> no_LF txt = true -> trailing_LF (wire event txt) = 2%nat.
Proof.
  intros Hne Hlf. destruct (exists_last Hne) as (t & d & ->).
  unfold wire. rewrite !app_assoc, trailing_LF_terminated.
  replace (data_field (t ++ [d])) with ((COLON :: t) ++ [d]) by (by destruct t).
  rewrite app_assoc, trailing_LF_snoc_other; eauto using no_LF_last.
Qed.

Lemma leading_LF_until l b r :
  Byte.eqb b LF = false -> leading_LF (l ++ b :: r) = leading_LF l.
Proof.
  intros Hb. induction l as [|x l IH]; simpl; [by rewrite Hb|].
  destruct (Byte.eqb x LF); [by rewrite IH|done].
Qed.

Lemma trailing_LF_after a b t :
  Byte.eqb b LF = false -> trailing_LF (a ++ b :: t) = trailing_LF t.
Proof.
  intros Hb. unfold trailing_LF. rewrite rev_app_distr. simpl.
  rewrite <- app_assoc. simpl. by apply leading_LF_until.
Qed.

(** The line feeds a frame ends with: those of the payload and the two
    of the terminator. *)
Lemma trailing_LF_wire event payload :
  trailing_LF (wire event payload) = (2 + trailing_LF payload)%nat.
Proof.
  unfold wire. destruct payload as [|x payload]; cbn [data_field].
  - change lit_data with ([x64; x61; x74] ++ [x61]).
    rewrite app_nil_l, !app_assoc, trailing_LF_terminated, <- !app_assoc.
    rewrite app_assoc. by rewrite trailing_LF_snoc_other.
  - rewrite app_assoc. cbn [app]. rewrite trailing_LF_after by done.
    by rewrite app_comm_cons, trailing_LF_terminated.
Qed.

(** C4, as stated, fails: the payload is not escaped, so a payload that
    ends in line feeds gives a frame that ends with more than two.
    [SendString("", "", "a\n\n")] submits "data:a\n\n\n\n". *)
Lemma four_LF_from_payload :
  SendString [] [] [x61; LF; LF] New
  = Some (submit (list_byte_of_string "data:a" ++ [LF; LF; LF; LF]) New)
  /\ trailing_LF (list_byte_of_string "data:a" ++ [LF; LF; LF; LF]) = 4%nat.
Proof. split; reflexivity. Qed.

(** C4, amended.  Whatever the id, the event type and the payload, and
    for the numeric variants too, the frame a producer submits ends
    with the two line feeds "\n\n" of the terminator: they follow the
    event line (if any), "data" and the data field in every branch.
    The frame ends with exactly two more line feeds than the payload
    ends with: with exactly two when the payload is empty or does not
    end in a line feed, as for every numeric payload. *)
Theorem frames_end_with_blank_line (growslice : Z -> Z -> Z)
    (id event data : list byte) (n u : Z) (s : Streamer) :
  - 2 ^ 63 <= n < 2 ^ 63 ->
  0 <= u < 2 ^ 64 ->
  (exists f, SendBytes id event data s = Some (submit f s)
     /\ f = (event_line event ++ lit_data ++ data_field data) ++ [LF; LF]
     /\ trailing_LF f = (2 + trailing_LF data)%nat)
  /\ (exists f, SendString id event data s = Some (submit f s)
     /\ f = (event_line event ++ lit_data ++ data_field data) ++ [LF; LF]
     /\ trailing_LF f = (2 + trailing_LF data)%nat)
  /\ (exists f, SendInt growslice id event n s = Some (submit f s)
     /\ f = (event_line event ++ lit_data ++ COLON :: FormatInt n) ++ [LF; LF]
     /\ trailing_LF (FormatInt n) = 0%nat
     /\ trailing_LF f = 2%nat)
  /\ (exists f, SendUint growslice id event u s = Some (submit f s)
     /\ f = (event_line event ++ lit_data ++ COLON :: FormatUint u) ++ [LF; LF]
     /\ trailing_LF (FormatUint u) = 0%nat
     /\ trailing_LF f = 2%nat).
Proof.
  intros Hn Hu.
  assert (Hshape : forall txt,
    wire event txt = (event_line event ++ lit_data ++ data_field txt) ++ [LF; LF]).
  { intros txt. unfold wire. by rewrite <- !app_assoc. }
  assert (Hnum : forall txt, txt <> [] -> no_LF txt = true ->
    wire event txt = (event_line event ++ lit_data ++ COLON :: txt) ++ [LF; LF]
    /\ trailing_LF txt = 0%nat /\ trailing_LF (wire event txt) = 2%nat).
  { intros txt Hne Hlf. split; [rewrite Hshape; by destruct txt|].
    assert (H2 : trailing_LF (wire event txt) = 2%nat)
      by (by apply trailing_LF_wire_plain).
    rewrite trailing_LF_wire in H2. split; [lia|]. by rewrite trailing_LF_wire, H2. }
  split_and!.
  - exists (wire event data).
    split_and!; [apply SendBytes_wire|apply Hshape|apply trailing_LF_wire].
  - exists (wire event data).
    split_and!; [apply SendString_wire|apply Hshape|apply trailing_LF_wire].
  - exists (wire event (FormatInt n)).
    split; [by apply SendInt_wire|]. apply Hnum; [|by apply no_LF_FormatInt].
    pose proof (zlen_FormatInt n Hn) as H. intros E. rewrite E in H.
    change (zlen (@nil byte)) with 0 in H. lia.
  - exists (wire event (FormatUint u)).
    split; [by apply SendUint_wire|]. apply Hnum; [|apply no_LF_FormatUint; lia].
    pose proof (zlen_FormatUint u Hu) as H. intros E. rewrite E in H.
    change (zlen (@nil byte)) with 0 in H. lia.
Qed.

Lemma frames_end_with_blank_line_witness :
  (exists f, SendBytes [] (list_byte_of_string "update") [x61; LF] New
             = Some (submit f New)
     /\ f = (event_line (list_byte_of_string "update") ++ lit_data
             ++ data_field [x61; LF]) ++ [LF; LF]
     /\ trailing_LF f = (2 + trailing_LF [x61; LF])%nat)
  /\ (exists f, SendString [] (list_byte_of_string "update") [x61; LF] New
             = Some (submit f New)
     /\ f = (event_line (list_byte_of_string "update") ++ lit_data
             ++ data_field [x61; LF]) ++ [LF; LF]
     /\ trailing_LF f = (2 + trailing_LF [x61; LF])%nat)
  /\ (exists f, SendInt (fun _ k => 2 * k) [] (list_byte_of_string "update")
               (- 9223372036854775808) New = Some (submit f New)
     /\ f = (event_line (list_byte_of_string "update") ++ lit_data
             ++ COLON :: FormatInt (- 9223372036854775808)) ++ [LF; LF]
     /\ trailing_LF (FormatInt (- 9223372036854775808)) = 0%nat
     /\ trailing_LF f = 2%nat)
  /\ (exists f, SendUint (fun _ k => 2 * k) [] (list_byte_of_string "update")
               18446744073709551615 New = Some (submit f New)
     /\ f = (event_line (list_byte_of_string "update") ++ lit_data
             ++ COLON :: FormatUint 18446744073709551615) ++ [LF; LF]
     /\ trailing_LF (FormatUint 18446744073709551615) = 0%nat
     /\ trailing_LF f = 2%nat).
Proof.
  apply (frames_end_with_blank_line (fun _ k => 2 * k) []
           (list_byte_of_string "update") [x61; LF]
           (- 9223372036854775808) 18446744073709551615 New);
    vm_compute; split; congruence.
Defined.

(** C5.  For every id and event type and every [int64] value [n]
    ([uint64] value [u]), [SendInt] ([SendUint]) submits exactly what
    [SendString] submits for the decimal numeral of the number; nothing
    of the 20 reserved bytes stays in the frame. *)
Theorem numeric_sends_are_string_sends (growslice : Z -> Z -> Z)
    (id event : list byte) (n u : Z) (s : Streamer) :
  - 2 ^ 63 <= n < 2 ^ 63 ->
  0 <= u < 2 ^ 64 ->
  (SendInt growslice id event n s = SendString id event (FormatInt n) s
   /\ is_decimal_of n (FormatInt n))
  /\ (SendUint growslice id event u s = SendString id event (FormatUint u) s
   /\ is_decimal_of u (FormatUint u)).
Proof.
  intros Hn Hu. rewrite !SendString_wire.
  split_and!.
  - by apply SendInt_wire.
  - by apply FormatInt_decimal.
  - by apply SendUint_wire.
  - apply FormatUint_decimal. lia.
Qed.

Lemma numeric_sends_are_string_sends_witness :
  (SendInt (fun _ k => 2 * k) [] [] (- 9223372036854775808) New
   = SendString [] [] (FormatInt (- 9223372036854775808)) New
   /\ is_decimal_of (- 9223372036854775808) (FormatInt (- 9223372036854775808)))
  /\ (SendUint (fun _ k => 2 * k) [] [] 18446744073709551615 New
   = SendString [] [] (FormatUint 18446744073709551615) New
   /\ is_decimal_of 18446744073709551615 (FormatUint 18446744073709551615)).
Proof.
  apply (numeric_sends_are_string_sends (fun _ k => 2 * k) [] []
           (- 9223372036854775808) 18446744073709551615 New);
    vm_compute; split; congruence.
Defined.

(** C10.  For every [int64] and every [uint64] value the numeral is at
    most 20 bytes long, so [SendInt] and [SendUint] never panic: every
    index and every reslice is in range, and [append] writes into the
    array [format] allocated, whose capacity the final slice still
    has. *)
Theorem numeric_sends_in_bounds (growslice : Z -> Z -> Z)
    (id event : list byte) (n u : Z) (s : Streamer) :
  - 2 ^ 63 <= n < 2 ^ 63 ->
  0 <= u < 2 ^ 64 ->
  (1 <= zlen (FormatInt n) <= maxIntToStrLen
   /\ exists p, numeric_steps growslice id event (FormatInt n) = Some p
        /\ cap p = zlen (layout event maxIntToStrLen)
        /\ SendInt growslice id event n s = Some (send_event p s))
  /\ (1 <= zlen (FormatUint u) <= maxUintToStrLen
   /\ exists p, numeric_steps growslice id event (FormatUint u) = Some p
        /\ cap p = zlen (layout event maxUintToStrLen)
        /\ SendUint growslice id event u s = Some (send_event p s)).
Proof.
  intros Hn Hu.
  pose proof (zlen_FormatInt n Hn) as Li. pose proof (zlen_FormatUint u Hu) as Lu.
  split; (split; [done|]).
  - destruct (numeric_steps_spec growslice id event _ Li) as (junk & E & C).
    eexists. split_and!; [exact E|exact C|]. by rewrite SendInt_steps, E.
  - destruct (numeric_steps_spec growslice id event _ Lu) as (junk & E & C).
    eexists. split_and!; [exact E|exact C|]. by rewrite SendUint_steps, E.
Qed.

Lemma numeric_sends_in_bounds_witness :
  (1 <= zlen (FormatInt (- 9223372036854775808)) <= maxIntToStrLen
   /\ exists p, numeric_steps (fun _ k => k) [] [] (FormatInt (- 9223372036854775808)) = Some p
        /\ cap p = zlen (layout [] maxIntToStrLen)
        /\ SendInt (fun _ k => k) [] [] (- 9223372036854775808) New = Some (send_event p New))
  /\ (1 <= zlen (FormatUint 18446744073709551615) <= maxUintToStrLen
   /\ exists p, numeric_steps (fun _ k => k) [] [] (FormatUint 18446744073709551615) = Some p
        /\ cap p = zlen (layout [] maxUintToStrLen)
        /\ SendUint (fun _ k => k) [] [] 18446744073709551615 New = Some (send_event p New)).
Proof.
  apply (numeric_sends_in_bounds (fun _ k => k) [] []
           (- 9223372036854775808) 18446744073709551615 New);
    vm_compute; split; congruence.
Defined.

(** ** The id parameter and "id:" lines *)

Lemma format_ignores_id id id' event dataLen :
  format id event dataLen = format id' event dataLen.
Proof. reflexivity. Qed.





(** The same with a carriage return, which ends a line as well. *)
Example id_line_after_CR :
  SendString [] [] (list_byte_of_string "x" ++ [CR] ++ list_byte_of_string "id:7") New
  = Some (submit (list_byte_of_string "data:x" ++ [CR]
                  ++ list_byte_of_string "id:7" ++ [LF; LF]) New)
  /\ has_id_line (list_byte_of_string "data:x" ++ [CR]
                  ++ list_byte_of_string "id:7" ++ [LF; LF]) = true.
Proof. split; reflexivity. Qed.



(** * The claim about SendJSON *)


(** * The coordinator *)

Lemma elem_of_range_clients (m : gmap client bool) cl :
  cl ∈ range_clients m <-> is_Some (m !! cl).
Proof.
  unfold range_clients. rewrite list_elem_of_fmap. split.
  - intros ([k b] & -> & H%elem_of_map_to_list). by exists b.
  - intros [b H]. exists (cl, b). split; [done|]. by apply elem_of_map_to_list.
Qed.

(** C8.  Processing a deregister request never fails; afterwards the
    client is not in the registry and every other entry is as before; for
    a client that was not registered the Streamer is unchanged; and
    processing the request twice leaves the same state as once. *)
Theorem deregister_idempotent (cl : client) (s : Streamer)
    (chans : gmap client (list frame)) :
  run_case (recv_disconnecting cl) s chans = Some (deregister cl s, chans)
  /\ clients (deregister cl s) !! cl = None
  /\ (forall cl', cl' <> cl ->
        clients (deregister cl s) !! cl' = clients s !! cl')
  /\ (clients s !! cl = None -> deregister cl s = s)
  /\ (s' ← run_case (recv_disconnecting cl) s chans;
      run_case (recv_disconnecting cl) s'.1 s'.2)
     = run_case (recv_disconnecting cl) s chans.
Proof.
  destruct s as [evs m]. unfold deregister. cbn.
  split_and!; [done|apply lookup_delete_eq| | |].
  - intros cl' H. by apply lookup_delete_ne.
  - intros H. by rewrite delete_id.
  - unfold deregister. cbn. by rewrite delete_delete_eq.
Qed.

(** * The goroutines together *)

Ltac inv_step H := inversion H; subst; clear H; cbn [str co hs taken] in *.

Lemma at_moved pl h : at_ (moved pl h) = pl.
Proof. done. Qed.

Lemma step_registered_live σ σ' :
  step σ σ' -> registered_live σ -> registered_live σ'.
Proof.
  intros Hstep Hinv c Hc. unfold registered_live in Hinv.
  inv_step Hstep; cbn [clients submit register deregister] in *.
  - by apply Hinv.
  - destruct (Hinv c Hc) as (h & Hh & Hat).
    exists h. split; [|done]. rewrite lookup_insert_ne; [done|congruence].
  - destruct (decide (c = cl)) as [->|Hne].
    + rewrite lookup_insert_eq. eexists. split; [done|]. by left.
    + rewrite lookup_insert_ne in Hc by done. rewrite lookup_insert_ne by done.
      by apply Hinv.
  - destruct (decide (c = cl)) as [->|Hne].
    + rewrite lookup_insert_eq. eexists. split; [done|]. by right.
    + rewrite lookup_insert_ne by done. by apply Hinv.
  - destruct (decide (c = cl)) as [->|Hne].
    + rewrite lookup_delete_eq in Hc. by destruct Hc.
    + rewrite lookup_delete_ne in Hc by done. rewrite lookup_insert_ne by done.
      by apply Hinv.
  - by apply Hinv.
  - destruct (decide (c = cl)) as [->|Hne].
    + rewrite lookup_insert_eq. eexists. split; [done|]. by left.
    + rewrite lookup_insert_ne by done. by apply Hinv.
  - by apply Hinv.
Qed.

Lemma steps_registered_live σ σ' :
  rtc step σ σ' -> registered_live σ -> registered_live σ'.
Proof. induction 1; eauto using step_registered_live. Qed.

Lemma reachable_registered_live σ : reachable σ -> registered_live σ.
Proof.
  intros H. apply (steps_registered_live init); [done|].
  intros cl [b Hb]. cbn in Hb. by rewrite lookup_empty in Hb.
Qed.

(** A handler that has returned stays as it is. *)
Lemma step_returned σ σ' cl h :
  step σ σ' -> hs σ !! cl = Some h -> at_ h = returned -> hs σ' !! cl = Some h.
Proof.
  intros Hstep Hh Hat.
  inv_step Hstep; try done;
    (destruct (decide (cl = cl0)) as [->|Hne];
     [congruence | by rewrite lookup_insert_ne]).
Qed.

Lemma steps_returned σ σ' cl h :
  rtc step σ σ' -> hs σ !! cl = Some h -> at_ h = returned -> hs σ' !! cl = Some h.
Proof. induction 1; eauto using step_returned. Qed.

(** ** A transport without the capabilities *)

Lemma body_WriteHeader code w : body (WriteHeader code w) = body w.
Proof. unfold WriteHeader. by destruct (status w). Qed.

Lemma body_http_Error w msg code :
  body (http_Error w msg code) = body w ++ list_byte_of_string msg ++ [LF].
Proof. unfold http_Error, Write. cbn [body]. by rewrite !body_WriteHeader. Qed.

Lemma status_http_Error w msg code :
  status w = None -> status (http_Error w msg code) = Some code.
Proof.
  intros H. unfold http_Error, Write, WriteHeader, Header_Set, Header_Del.
  cbn. by rewrite H.
Qed.

Lemma ServeHTTP_enter_refuses w :
  flusher w = false \/ closeNotifier w = false ->
  at_ (ServeHTTP_enter w) = returned
  /\ (status w = None ->
      status (w_ (ServeHTTP_enter w)) = Some StatusNotImplemented)
  /\ exists msg, body (w_ (ServeHTTP_enter w)) = body w ++ msg ++ [LF].
Proof.
  intros H. unfold ServeHTTP_enter.
  destruct (flusher w); cbn [negb].
  - destruct H as [H|H]; [done|]. rewrite H. cbn [negb at_ w_].
    split_and!; [done|apply status_http_Error|].
    eexists. apply body_http_Error.
  - cbn [at_ w_]. split_and!; [done|apply status_http_Error|].
    eexists. apply body_http_Error.
Qed.

(** C9.  When the transport cannot flush or cannot notify of its
    closing, [ServeHTTP] answers 501 Not Implemented and returns: the
    step leaves the registry as it is, and whatever the goroutines do
    afterwards, this handler stays returned and its client is never in
    the registry. *)
Theorem refused_never_registered (σ : system) (cl : client) (w : ResponseWriter) :
  reachable σ ->
  hs σ !! cl = None ->
  status w = None ->
  flusher w = false \/ closeNotifier w = false ->
  let h := ServeHTTP_enter w in
  let σ1 := mkSys (str σ) (co σ) (<[cl := h]> (hs σ)) (taken σ) in
  step σ σ1
  /\ at_ h = returned
  /\ status (w_ h) = Some StatusNotImplemented
  /\ clients (str σ1) = clients (str σ)
  /\ forall σ', rtc step σ1 σ' ->
       hs σ' !! cl = Some h /\ clients (str σ') !! cl = None.
Proof.
  intros Hr Hfresh Hst Hcap h σ1.
  destruct (ServeHTTP_enter_refuses w Hcap) as (Hat & Hstatus & _).
  assert (Hstep : step σ σ1).
  { destruct σ as [s c H T]. by apply step_serve. }
  split_and!; [done|done|by apply Hstatus|done|].
  intros σ' Hsteps.
  assert (Hh : hs σ' !! cl = Some h).
  { apply (steps_returned σ1); [done| |done]. subst σ1. cbn.
    apply lookup_insert_eq. }
  split; [done|].
  assert (Hlive : registered_live σ').
  { apply (steps_registered_live σ1); [done|].
    apply (step_registered_live σ); [done|]. by apply reachable_registered_live. }
  destruct (clients (str σ') !! cl) eqn:E; [|done].
  destruct (Hlive cl) as (h' & Hh' & Hat'); [by eexists|].
  assert (h' = h) as -> by congruence.
  fold h in Hat. rewrite Hat in Hat'. by destruct Hat'.
Qed.

Lemma refused_never_registered_witness :
  let w := mkW false true ∅ None [] [] in
  let h := ServeHTTP_enter w in
  let σ1 := mkSys (str init) (co init) (<[0%nat := h]> (hs init)) (taken init) in
  step init σ1
  /\ at_ h = returned
  /\ status (w_ h) = Some StatusNotImplemented
  /\ clients (str σ1) = clients (str init)
  /\ forall σ', rtc step σ1 σ' ->
       hs σ' !! 0%nat = Some h /\ clients (str σ') !! 0%nat = None.
Proof.
  apply (refused_never_registered init 0%nat (mkW false true ∅ None [] [])).
  - apply rtc_refl.
  - reflexivity.
  - reflexivity.
  - left. reflexivity.
Defined.

(** ** The fan-out against a closing connection *)

Lemma step_blocked ev cl todo σ σ' :
  blocked ev cl todo σ -> step σ σ' ->
  blocked ev cl todo σ'
  /\ clients (str σ') = clients (str σ)
  /\ forall c h, hs σ !! c = Some h ->
       exists h', hs σ' !! c = Some h' /\ got h' = got h.
Proof.
  intros (Hco & hb & Hb & Hat) Hstep. unfold blocked.
  inv_step Hstep; try discriminate.
  - split_and!; [done|eauto|done|eauto].
  - assert (cl <> cl0) by congruence.
    split_and!; [done| |done|].
    + exists hb. by rewrite lookup_insert_ne.
    + intros k h0 Hk. exists h0. split; [|done].
      rewrite lookup_insert_ne; [done|congruence].
  - assert (cl <> cl0) by congruence.
    split_and!; [done| |done|].
    + exists hb. by rewrite lookup_insert_ne.
    + intros k h' Hc. destruct (decide (k = cl0)) as [->|Hne].
      * rewrite lookup_insert_eq. eexists. split; [done|].
        assert (h' = h) as -> by congruence. done.
      * rewrite lookup_insert_ne by done. eauto.
  - injection Hco as -> -> ->. congruence.
Qed.

(** Once that has happened it stays so: the coordinator never leaves
    the send, the registry never changes, and no handler ever receives
    another frame. *)
Lemma blocked_forever ev cl todo σ σ' :
  blocked ev cl todo σ -> rtc step σ σ' ->
  blocked ev cl todo σ'
  /\ clients (str σ') = clients (str σ)
  /\ forall c h, hs σ !! c = Some h ->
       exists h', hs σ' !! c = Some h' /\ got h' = got h.
Proof.
  intros Hb Hsteps. revert Hb.
  induction Hsteps as [σ|σ σ1 σ2 Hstep _ IH]; intros Hb; [by eauto|].
  destruct (step_blocked _ _ _ _ _ Hb Hstep) as (Hb1 & Hc1 & Hg1).
  destruct (IH Hb1) as (Hb2 & Hc2 & Hg2).
  split_and!; [done|congruence|].
  intros c h Hc. destruct (Hg1 c h Hc) as (h1 & Hh1 & E1).
  destruct (Hg2 c h1 Hh1) as (h2 & Hh2 & E2). exists h2. split; congruence.
Qed.

Lemma range_two :
  [1%nat; 2%nat] ≡ₚ range_clients (<[2%nat := true]> (<[1%nat := true]> ∅)).
Proof.
  apply NoDup_Permutation.
  - apply NoDup_cons. split; [|apply NoDup_singleton].
    rewrite list_elem_of_singleton. lia.
  - apply NoDup_fst_map_to_list.
  - intros x. rewrite elem_of_range_clients, !elem_of_cons, elem_of_nil.
    destruct (decide (x = 2%nat)) as [->|H2].
    { rewrite lookup_insert_eq. split; [by eexists|by right; left]. }
    rewrite lookup_insert_ne by done.
    destruct (decide (x = 1%nat)) as [->|H1].
    { rewrite lookup_insert_eq. split; [by eexists|by left]. }
    rewrite lookup_insert_ne, lookup_empty by done.
    split; [intros [?|[?|[]]]; done|by intros [? ?]].
Qed.

(** C2, on the code.  Clients 1 and 2 connect, a producer submits the
    frame of [SendString("", "greeting", "hi")], and the connection of
    client 1 closes: its handler takes the [close] case and sends on
    [s.disconnecting] while the coordinator takes the event and, in the
    fan-out, sends to client 1 first.  Neither send can complete.
    Client 2 was registered before the coordinator processed the
    broadcast and stays registered, its handler is at the [select], and
    in no later state has it received the frame. *)
Theorem broadcast_blocks_on_closing_client :
  exists σ, reachable σ
    /\ co σ = sending greeting [1%nat; 2%nat]
    /\ taken σ = [greeting]
    /\ clients (str σ) !! 2%nat = Some true
    /\ (exists h, hs σ !! 2%nat = Some h /\ at_ h = in_select /\ got h = [])
    /\ forall σ', rtc step σ σ' ->
         co σ' = sending greeting [1%nat; 2%nat]
         /\ clients (str σ') !! 2%nat = Some true
         /\ exists h', hs σ' !! 2%nat = Some h' /\ got h' = [].
Proof.
  set (E := ServeHTTP_enter plain_writer).
  set (H1 := <[1%nat := E]> (∅ : gmap client handler)).
  set (H2 := <[1%nat := moved in_select E]> H1).
  set (H3 := <[2%nat := E]> H2).
  set (H4 := <[2%nat := moved in_select E]> H3).
  set (H5 := <[1%nat := ServeHTTP_close (moved in_select E)]> H4).
  set (m := <[2%nat := true]> (<[1%nat := true]> (∅ : gmap client bool))).
  exists (mkSys (mkStreamer [] m) (sending greeting [1%nat; 2%nat]) H5 [greeting]).
  assert (Hb : blocked greeting 1%nat [2%nat]
                 (mkSys (mkStreamer [] m) (sending greeting [1%nat; 2%nat]) H5 [greeting])).
  { split; [done|]. eexists. split; [apply lookup_insert_eq|done]. }
  assert (L2 : H5 !! 2%nat = Some (moved in_select E)).
  { subst H5. rewrite lookup_insert_ne by done. apply lookup_insert_eq. }
  split_and!; [|done|done|apply lookup_insert_eq|by eexists|].
  - unfold reachable, init.
    eapply rtc_l; [apply (step_serve _ _ _ _ 1%nat plain_writer); done|].
    eapply rtc_l; [apply (step_connect _ _ _ 1%nat E); [apply lookup_insert_eq|done]|].
    fold H1 H2.
    eapply rtc_l; [apply (step_serve _ _ _ _ 2%nat plain_writer); done|].
    fold E H3.
    eapply rtc_l; [apply (step_connect _ _ _ 2%nat E); [apply lookup_insert_eq|done]|].
    fold H4.
    eapply rtc_l; [apply (step_submit _ _ _ _ greeting)|].
    eapply rtc_l.
    { apply (step_close _ _ _ _ 1%nat (moved in_select E)); [|done].
      subst H4 H3. rewrite !lookup_insert_ne by done. apply lookup_insert_eq. }
    fold H5.
    eapply rtc_l; [|apply rtc_refl].
    apply (step_take [] m H5 [] greeting [1%nat; 2%nat]). apply range_two.
  - intros σ' Hsteps.
    destruct (blocked_forever _ _ _ _ _ Hb Hsteps) as ((Hco & _) & Hcl & Hg).
    destruct (Hg 2%nat _ L2) as (h' & Hh' & Hgot).
    split_and!; [done| |by exists h'].
    rewrite Hcl. apply lookup_insert_eq.
Qed.

(** C1, on the code.  The coordinator has received a broadcast request:
    it has taken the frame from [s.event], and the registry at that
    step holds the clients 1 and 2.  The handler of client 1 is sending
    on [s.disconnecting], so the first send of the fan-out never
    completes: in every later state the coordinator is at that send,
    the registry is the same, and no client of the registry has been
    sent the frame. *)
Theorem fan_out_stops_at_closing_client :
  reachable fan_out_at_closing_client
  /\ taken fan_out_at_closing_client = [greeting]
  /\ event (str fan_out_at_closing_client) = []
  /\ (forall k, is_Some (clients (str fan_out_at_closing_client) !! k)
               <-> k = 1%nat \/ k = 2%nat)
  /\ forall σ', rtc step fan_out_at_closing_client σ' ->
        co σ' = sending greeting [1%nat; 2%nat]
        /\ clients (str σ') = clients (str fan_out_at_closing_client)
        /\ forall k, is_Some (clients (str σ') !! k) ->
              exists h, hs σ' !! k = Some h /\ got h = [].
Proof.
  set (E := ServeHTTP_enter plain_writer).
  assert (Hreg : forall k,
    is_Some (clients (str fan_out_at_closing_client) !! k)
    <-> k = 1%nat \/ k = 2%nat).
  { intros k. cbn [fan_out_at_closing_client str clients].
    destruct (decide (k = 2%nat)) as [->|H2].
    { rewrite lookup_insert_eq. split; [by right|by eexists]. }
    rewrite lookup_insert_ne by done.
    destruct (decide (k = 1%nat)) as [->|H1].
    { rewrite lookup_insert_eq. split; [by left|by eexists]. }
    rewrite lookup_insert_ne, lookup_empty by done.
    split; [by intros [? ?]|by intros [?|?]]. }
  split_and!; [|done|done|exact Hreg|].
  - unfold reachable, init, fan_out_at_closing_client. fold E.
    eapply rtc_l; [apply (step_serve _ _ _ _ 1%nat plain_writer); done|].
    eapply rtc_l; [apply (step_connect _ _ _ 1%nat E); [apply lookup_insert_eq|done]|].
    eapply rtc_l; [apply (step_serve _ _ _ _ 2%nat plain_writer); done|].
    fold E.
    eapply rtc_l; [apply (step_connect _ _ _ 2%nat E); [apply lookup_insert_eq|done]|].
    eapply rtc_l; [apply (step_submit _ _ _ _ greeting)|].
    eapply rtc_l.
    { apply (step_close _ _ _ _ 1%nat (moved in_select E)); [|done].
      rewrite !lookup_insert_ne by done. apply lookup_insert_eq. }
    eapply rtc_l; [|apply rtc_refl].
    apply (step_take [] _ _ [] greeting [1%nat; 2%nat]). apply range_two.
  - intros σ' Hsteps.
    assert (Hb : blocked greeting 1%nat [2%nat] fan_out_at_closing_client).
    { split; [done|]. eexists. split; [apply lookup_insert_eq|done]. }
    destruct (blocked_forever _ _ _ _ _ Hb Hsteps) as ((Hco & _) & Hcl & Hg).
    split_and!; [done|done|]. intros k Hk. rewrite Hcl in Hk.
    apply Hreg in Hk as [->| ->].
    + destruct (Hg 1%nat (ServeHTTP_close (moved in_select E))) as (h' & Hh' & Hgot);
        [apply lookup_insert_eq|]. by exists h'.
    + destruct (Hg 2%nat (moved in_select E)) as (h' & Hh' & Hgot).
      { cbn [fan_out_at_closing_client hs].
        rewrite lookup_insert_ne by done. apply lookup_insert_eq. }
      by exists h'.
Qed.

(** * Further properties of the encoder *)

(** X1.  For the lengths the producers pass, the length of a byte
    string in memory, [format] never panics.  It returns a slice filled
    to its capacity, of exactly the length it computed, holding the
    event line (if any), "data", and for a payload that is not empty a
    ':' and as many zero bytes as the payload is long, which the caller
    overwrites, then the terminator. *)
Theorem format_reserves_payload (id event data : list byte) :
  exists p, format id event (zlen data) = Some p
    /\ bytes p = event_line event ++ lit_data
                 ++ match data with
                    | [] => []
                    | _ => COLON :: zeros (zlen data)
                    end
                 ++ [LF; LF]
    /\ cap p = len p
    /\ len p = 6 + (if 0 <? zlen event then 6 + zlen event + 1 else 0)
                 + (if 0 <? zlen data then 1 + zlen data else 0).
Proof.
  eexists. split; [apply format_layout|]. cbn [len]. unfold cap. cbn [arr].
  split_and!; [|done|].
  - rewrite bytes_full. unfold layout, data_gap. destruct data as [|d data]; [done|].
    destruct (Z.ltb_spec 0 (zlen (d :: data))) as [_|H]; [done|].
    rewrite zlen_cons in H. pose proof (zlen_nonneg data). lia.
  - rewrite zlen_layout. destruct event as [|e ev]; [done|].
    destruct (Z.ltb_spec 0 (zlen (e :: ev))) as [_|H].
    + cbn [event_line]. len_solve.
    + rewrite zlen_cons in H. pose proof (zlen_nonneg ev). lia.
Qed.

Lemma leading_LF_stop l b r :
  Byte.eqb b LF = false -> leading_LF (l ++ b :: r) = leading_LF l.
Proof.
  intros Hb. induction l as [|x l IH]; simpl; [by rewrite Hb|].
  destruct (Byte.eqb x LF); [by rewrite IH|done].
Qed.

Lemma trailing_LF_stop a b t :
  Byte.eqb b LF = false -> trailing_LF (a ++ b :: t) = trailing_LF t.
Proof.
  intros Hb. unfold trailing_LF. rewrite rev_app_distr. simpl.
  rewrite <- app_assoc. simpl. by apply leading_LF_stop.
Qed.

(** X2.  The payload is not escaped: the frame ends with the line feeds the
    payload ends with, and two more. *)
Theorem trailing_LF_of_frame (id event payload : list byte) (s : Streamer) :
  exists f, SendBytes id event payload s = Some (submit f s)
    /\ SendString id event payload s = Some (submit f s)
    /\ trailing_LF f = (2 + trailing_LF payload)%nat.
Proof.
  exists (wire event payload).
  split_and!; [apply SendBytes_wire|apply SendString_wire|].
  unfold wire. destruct payload as [|x payload]; cbn [data_field].
  - change lit_data with ([x64; x61; x74] ++ [x61]).
    rewrite app_nil_l, !app_assoc, trailing_LF_terminated, <- !app_assoc.
    rewrite app_assoc. by rewrite trailing_LF_snoc_other.
  - rewrite app_assoc. cbn [app]. rewrite trailing_LF_stop by done.
    by rewrite app_comm_cons, trailing_LF_terminated.
Qed.

(** ** Reading a frame back *)

Lemma data_field_inj p p' : data_field p = data_field p' -> p = p'.
Proof. destruct p, p'; cbn; intros H; congruence. Qed.

Lemma wire_inj_payload event p p' : wire event p = wire event p' -> p = p'.
Proof.
  unfold wire. intros H. do 2 apply app_inv_head in H.
  apply app_inv_tail in H. by apply data_field_inj.
Qed.

Lemma first_LF_unique a : forall a' r r',
  no_LF a = true -> no_LF a' = true ->
  a ++ LF :: r = a' ++ LF :: r' -> a = a' /\ r = r'.
Proof.
  induction a as [|x a IH]; intros [|x' a'] r r' Ha Ha' H; cbn in *.
  - by injection H.
  - injection H as <- _. by cbn in Ha'.
  - injection H as -> _. by cbn in Ha.
  - injection H as -> H.
    apply andb_prop in Ha as [_ Ha]. apply andb_prop in Ha' as [_ Ha'].
    destruct (IH a' r r' Ha Ha' H) as [-> ->]. done.
Qed.

Lemma wire_inj event event' p p' :
  no_LF event = true -> no_LF event' = true ->
  wire event p = wire event' p' -> event = event' /\ p = p'.
Proof.
  intros He He' H.
  assert (event = event') as <-; [|split; [done|by eapply wire_inj_payload]].
  unfold wire in H. destruct event as [|e ev], event' as [|e' ev'].
  - done.
  - cbn in H. discriminate.
  - cbn in H. discriminate.
  - cbn [event_line] in H. rewrite <- !app_assoc in H.
    apply app_inv_head in H. cbn [app] in H.
    change (e :: ev ++ LF :: ?r) with ((e :: ev) ++ LF :: r) in H.
    change (e' :: ev' ++ LF :: ?r) with ((e' :: ev') ++ LF :: r) in H.
    by apply first_LF_unique in H as [? _].
Qed.

(** X3.  When the event types hold no line feed, the frame determines the
    event type and the payload: two sends that submit the same frame
    were given the same event type and the same payload, whatever line
    feeds the payload has. *)
Theorem frame_determines_event_and_payload
    (id id' event event' payload payload' : list byte) (s : Streamer) :
  no_LF event = true ->
  no_LF event' = true ->
  SendBytes id event payload s = SendBytes id' event' payload' s ->
  event = event' /\ payload = payload'.
Proof.
  intros He He'. rewrite !SendBytes_wire. intros H. injection H as H.
  apply app_inv_head in H. injection H as H. by apply wire_inj.
Qed.

Lemma frame_determines_event_and_payload_witness :
  list_byte_of_string "update" = list_byte_of_string "update"
  /\ [x34; LF; x32] = [x34; LF; x32].
Proof.
  apply (frame_determines_event_and_payload [x37] []
           (list_byte_of_string "update") (list_byte_of_string "update")
           [x34; LF; x32] [x34; LF; x32] New); reflexivity.
Defined.

(** An event type with a line feed in it is another matter: these two
    sends submit the same frame. *)
Example frames_of_event_with_LF :
  SendString [] (list_byte_of_string "x")
    (list_byte_of_string "y" ++ [LF] ++ list_byte_of_string "data:z") New
  = SendString [] (list_byte_of_string "x" ++ [LF] ++ list_byte_of_string "data:y")
      (list_byte_of_string "z") New.
Proof. reflexivity. Qed.

Lemma MINUS_not_digit : ~ is_digit MINUS.
Proof. unfold is_digit. vm_compute. intros [H _]. by apply H. Qed.

Lemma FormatInt_inj n n' :
  - 2 ^ 63 <= n < 2 ^ 63 -> - 2 ^ 63 <= n' < 2 ^ 63 ->
  FormatInt n = FormatInt n' -> n = n'.
Proof.
  intros Hn Hn' H.
  destruct (FormatInt_spec n Hn) as (ds & E & Hv & Hd & Hl).
  destruct (FormatInt_spec n' Hn') as (ds' & E' & Hv' & Hd' & Hl').
  rewrite E, E' in H. clear E E'.
  destruct (Z.ltb_spec n 0), (Z.ltb_spec n' 0).
  - injection H as ->. lia.
  - subst ds'. apply Forall_cons in Hd' as [Hm _]. by apply MINUS_not_digit in Hm.
  - subst ds. apply Forall_cons in Hd as [Hm _]. by apply MINUS_not_digit in Hm.
  - subst ds'. lia.
Qed.

Lemma FormatUint_inj u u' :
  0 <= u -> 0 <= u' -> FormatUint u = FormatUint u' -> u = u'.
Proof.
  intros Hu Hu' H.
  destruct (FormatUint_spec u Hu) as (Hv & _).
  destruct (FormatUint_spec u' Hu') as (Hv' & _). congruence.
Qed.

(** X4.  The frame of a numeric send determines the number: for the same
    event type, different [int64] values (different [uint64] values)
    give different frames. *)
Theorem numeric_frame_determines_number (growslice : Z -> Z -> Z)
    (id id' event : list byte) (n n' u u' : Z) (s : Streamer) :
  - 2 ^ 63 <= n < 2 ^ 63 -> - 2 ^ 63 <= n' < 2 ^ 63 ->
  0 <= u < 2 ^ 64 -> 0 <= u' < 2 ^ 64 ->
  (SendInt growslice id event n s = SendInt growslice id' event n' s -> n = n')
  /\ (SendUint growslice id event u s = SendUint growslice id' event u' s -> u = u').
Proof.
  intros Hn Hn' Hu Hu'. split.
  - rewrite !SendInt_wire by done. intros H. injection H as H.
    apply app_inv_head in H. injection H as H.
    apply wire_inj_payload in H. by apply FormatInt_inj.
  - rewrite !SendUint_wire by done. intros H. injection H as H.
    apply app_inv_head in H. injection H as H.
    apply wire_inj_payload in H. apply FormatUint_inj; [lia..|done].
Qed.

Lemma numeric_frame_determines_number_witness :
  (SendInt (fun _ k => k) [] [] (- 9223372036854775808) New
   = SendInt (fun _ k => k) [] [] (- 9223372036854775808) New ->
   - 9223372036854775808 = - 9223372036854775808)
  /\ (SendUint (fun _ k => k) [] [] 18446744073709551615 New
      = SendUint (fun _ k => k) [] [] 18446744073709551615 New ->
      18446744073709551615 = 18446744073709551615).
Proof.
  apply (numeric_frame_determines_number (fun _ k => k) [] [] []
           (- 9223372036854775808) (- 9223372036854775808)
           18446744073709551615 18446744073709551615 New);
    vm_compute; split; congruence.
Defined.

(** * Further properties of the coordinator and the handlers *)

Lemma range_one : [1%nat] ≡ₚ range_clients (<[1%nat := true]> ∅).
Proof.
  unfold range_clients. rewrite insert_empty, map_to_list_singleton. done.
Qed.

Lemma reachable_one_client_sent : reachable one_client_sent.
Proof.
  unfold reachable, init, one_client_sent, one_client. cbn [str hs taken].
  set (E := ServeHTTP_enter plain_writer).
  eapply rtc_l; [apply (step_serve _ _ _ _ 1%nat plain_writer); done|].
  eapply rtc_l; [apply (step_connect _ _ _ 1%nat E); [apply lookup_insert_eq|done]|].
  eapply rtc_l; [apply (step_submit _ _ _ _ greeting)|].
  eapply rtc_l; [apply (step_take [] _ _ [] greeting [1%nat]); apply range_one|].
  eapply rtc_l; [|apply rtc_refl].
  apply (step_deliver _ _ _ greeting 1%nat [] (moved in_select E));
    [apply lookup_insert_eq|done].
Qed.

Lemma reachable_one_client : reachable one_client.
Proof.
  eapply rtc_r; [apply reachable_one_client_sent|]. apply step_done.
Qed.

Lemma steps_invariant (P : system -> Prop) :
  (forall σ σ', step σ σ' -> P σ -> P σ') ->
  forall σ σ', rtc step σ σ' -> P σ -> P σ'.
Proof. intros Hstep σ σ' Hsteps. induction Hsteps; eauto. Qed.

(** ** The registry and the handlers *)

Lemma in_loop_enter w : in_loop (at_ (ServeHTTP_enter w)) = false.
Proof.
  unfold ServeHTTP_enter. by destruct (flusher w), (closeNotifier w).
Qed.

Lemma step_registry_of_handlers σ σ' :
  step σ σ' -> registry_of_handlers σ -> registry_of_handlers σ'.
Proof.
  intros Hstep Hinv k. specialize (Hinv k).
  inv_step Hstep; cbn [clients submit register deregister] in *; try done.
  - destruct (decide (k = cl)) as [->|Hne].
    + rewrite lookup_insert_eq, in_loop_enter. by rewrite H0 in Hinv.
    + by rewrite lookup_insert_ne.
  - destruct (decide (k = cl)) as [->|Hne].
    + by rewrite !lookup_insert_eq.
    + by rewrite !lookup_insert_ne.
  - destruct (decide (k = cl)) as [->|Hne].
    + rewrite lookup_insert_eq. rewrite H0, H1 in Hinv. done.
    + by rewrite lookup_insert_ne.
  - destruct (decide (k = cl)) as [->|Hne].
    + by rewrite lookup_insert_eq, lookup_delete_eq.
    + by rewrite lookup_insert_ne, lookup_delete_ne.
  - destruct (decide (k = cl)) as [->|Hne].
    + rewrite lookup_insert_eq. rewrite H0, H1 in Hinv. done.
    + by rewrite lookup_insert_ne.
Qed.

(** X5.  In every state the program reaches, the registry holds exactly the
    clients whose handler is inside its loop, between the send on
    [s.connecting] and the send on [s.disconnecting], each with the
    value [true]. *)
Theorem registry_is_handlers_in_loop (σ : system) (cl : client) :
  reachable σ ->
  (clients (str σ) !! cl = Some true
   <-> exists h, hs σ !! cl = Some h
         /\ (at_ h = in_select \/ at_ h = send_disconnecting))
  /\ clients (str σ) !! cl <> Some false.
Proof.
  intros Hr.
  assert (Hinv : registry_of_handlers σ).
  { apply (steps_invariant _ step_registry_of_handlers init); [done|].
    intros k. cbn. by rewrite !lookup_empty. }
  rewrite (Hinv cl). destruct (hs σ !! cl) as [h|].
  - destruct (at_ h) eqn:E; cbn; (split; [split|done]);
      try done; try (intros (h' & [= <-] & [?|?]); congruence);
      intros _; exists h; split; [done|auto..].
  - split; [|done]. split; [done|]. by intros (h & ? & _).
Qed.

Lemma registry_is_handlers_in_loop_witness :
  (clients (str one_client) !! 1%nat = Some true
   <-> exists h, hs one_client !! 1%nat = Some h
         /\ (at_ h = in_select \/ at_ h = send_disconnecting))
  /\ clients (str one_client) !! 1%nat <> Some false.
Proof.
  apply (registry_is_handlers_in_loop one_client 1%nat).
  apply reachable_one_client.
Defined.

(** ** The order of delivery *)

Lemma got_enter w : got (ServeHTTP_enter w) = [].
Proof. unfold ServeHTTP_enter. by destruct (flusher w), (closeNotifier w). Qed.

Lemma step_in_order σ σ' : step σ σ' -> in_order σ -> in_order σ'.
Proof.
  intros Hstep Hinv. unfold in_order in *.
  inv_step Hstep.
  - done.
  - assert (Hnew : forall k h U, <[cl := ServeHTTP_enter w]> H !! k = Some h ->
        (H !! k = Some h -> got h `sublist_of` U) -> got h `sublist_of` U).
    { intros k h U Hk Hold. destruct (decide (k = cl)) as [->|Hne].
      - rewrite lookup_insert_eq in Hk. injection Hk as <-.
        rewrite got_enter. apply sublist_nil_l.
      - rewrite lookup_insert_ne in Hk by done. auto. }
    destruct c as [|ev todo].
    + intros k h Hk. eapply Hnew; eauto.
    + destruct Hinv as (Hnd & T0 & HT & Hall). split; [done|].
      exists T0. split; [done|]. intros k h Hk. eapply Hnew; eauto.
  - intros k h' Hk. destruct (decide (k = cl)) as [->|Hne].
    + rewrite lookup_insert_eq in Hk. injection Hk as <-. cbn. eauto.
    + rewrite lookup_insert_ne in Hk by done. eauto.
  - assert (Hnew : forall k h' U, <[cl := ServeHTTP_close h]> H !! k = Some h' ->
        (forall h0, H !! k = Some h0 -> got h0 `sublist_of` U) ->
        got h' `sublist_of` U).
    { intros k h' U Hk Hold. destruct (decide (k = cl)) as [->|Hne].
      - rewrite lookup_insert_eq in Hk. injection Hk as <-. cbn. eauto.
      - rewrite lookup_insert_ne in Hk by done. auto. }
    destruct c as [|ev todo].
    + intros k h' Hk. eapply Hnew; eauto.
    + destruct Hinv as (Hnd & T0 & HT & Hall). split; [done|].
      exists T0. split; [done|]. intros k h' Hk. eapply Hnew; eauto.
  - intros k h' Hk. destruct (decide (k = cl)) as [->|Hne].
    + rewrite lookup_insert_eq in Hk. injection Hk as <-. cbn. eauto.
    + rewrite lookup_insert_ne in Hk by done. eauto.
  - split.
    { rewrite H0. apply NoDup_fst_map_to_list. }
    exists T. split; [done|]. intros k h Hk.
    destruct (decide (k ∈ todo)); [eauto|]. apply sublist_inserts_r. eauto.
  - destruct Hinv as (Hnd & T0 & HT & Hall).
    apply NoDup_cons in Hnd as [Hcl Hnd]. split; [done|].
    exists T0. split; [done|]. intros k h' Hk.
    destruct (decide (k = cl)) as [->|Hne].
    + rewrite lookup_insert_eq in Hk. injection Hk as <-. cbn [got ServeHTTP_event].
      rewrite decide_False by done. rewrite HT.
      apply sublist_app; [|done].
      specialize (Hall cl h H0). rewrite decide_True in Hall by (by left). done.
    + rewrite lookup_insert_ne in Hk by done.
      specialize (Hall k h' Hk).
      destruct (decide (k ∈ todo)) as [Hin|Hnin].
      * rewrite decide_True in Hall by (by right). done.
      * rewrite decide_False in Hall; [done|].
        by intros [?|?]%elem_of_cons.
  - destruct Hinv as (Hnd & T0 & HT & Hall). intros k h Hk.
    specialize (Hall k h Hk). rewrite decide_False in Hall; [done|].
    apply not_elem_of_nil.
Qed.

(** X6.  What a handler has received is, in every state the program
    reaches, a subsequence of the frames the coordinator has taken from
    [s.event], in that order: a client gets the frames in the order of
    their processing and each processed frame at most once. *)
Theorem frames_arrive_in_order (σ : system) (cl : client) (h : handler) :
  reachable σ ->
  hs σ !! cl = Some h ->
  got h `sublist_of` taken σ.
Proof.
  intros Hr Hh.
  assert (Hinv : in_order σ).
  { apply (steps_invariant _ step_in_order init); [done|].
    intros k h' Hk. cbn in Hk. by rewrite lookup_empty in Hk. }
  unfold in_order in Hinv. destruct (co σ) as [|ev todo]; [eauto|].
  destruct Hinv as (_ & T0 & HT & Hall). specialize (Hall cl h Hh).
  destruct (decide (cl ∈ todo)); [|done].
  rewrite HT. by apply sublist_inserts_r.
Qed.

Lemma frames_arrive_in_order_witness :
  got (ServeHTTP_event greeting (moved in_select (ServeHTTP_enter plain_writer)))
    `sublist_of` taken one_client.
Proof.
  apply (frames_arrive_in_order one_client 1%nat).
  - apply reachable_one_client.
  - reflexivity.
Defined.

(** ** Submission order *)

Lemma step_fifo σ σ' :
  step σ σ' ->
  exists sub, taken σ' ++ event (str σ') = (taken σ ++ event (str σ)) ++ sub.
Proof.
  intros Hstep. inv_step Hstep; cbn [event submit register deregister];
    try (exists []; by rewrite app_nil_r).
  - exists [f]. by rewrite app_assoc.
  - exists []. by rewrite app_nil_r, <- app_assoc.
Qed.

(** X7.  The frames taken so far followed by the frames still in [s.event]
    are the submissions in their order: the program only ever adds to
    the end of this sequence.  So the coordinator takes the frames in
    the order they were submitted, and loses none. *)
Theorem frames_taken_in_submission_order (σ σ' : system) :
  rtc step σ σ' ->
  exists sub, taken σ' ++ event (str σ') = (taken σ ++ event (str σ)) ++ sub.
Proof.
  induction 1 as [σ|σ σ1 σ2 Hstep _ (sub2 & IH)].
  - exists []. by rewrite app_nil_r.
  - destruct (step_fifo _ _ Hstep) as (sub1 & H1).
    exists (sub1 ++ sub2). by rewrite IH, H1, app_assoc.
Qed.

Lemma frames_taken_in_submission_order_witness :
  exists sub, taken one_client ++ event (str one_client)
              = (taken init ++ event (str init)) ++ sub.
Proof.
  apply (frames_taken_in_submission_order init one_client).
  apply reachable_one_client.
Defined.

(** ** The end of a fan-out *)

Lemma step_fanned_out σ σ' : step σ σ' -> fanned_out σ -> fanned_out σ'.
Proof.
  intros Hstep Hinv ev0 todo0 Hco k Hk Hnin. unfold fanned_out in Hinv.
  inv_step Hstep; try discriminate; cbn [clients submit] in *.
  - eauto.
  - destruct (Hinv _ _ Hco k Hk Hnin) as (h & l & Hh & Hg).
    exists h, l. split; [|done]. rewrite lookup_insert_ne; [done|congruence].
  - destruct (Hinv _ _ Hco k Hk Hnin) as (h' & l & Hh & Hg).
    destruct (decide (k = cl)) as [->|Hne].
    + rewrite lookup_insert_eq. exists (ServeHTTP_close h), l. split; [done|].
      cbn. congruence.
    + rewrite lookup_insert_ne by done. eauto.
  - injection Hco as <- <-. exfalso. apply Hnin. rewrite H0.
    by apply elem_of_range_clients.
  - injection Hco as <- <-. destruct (decide (k = cl)) as [->|Hne].
    + rewrite lookup_insert_eq. by exists (ServeHTTP_event ev h), (got h).
    + rewrite lookup_insert_ne by done.
      apply (Hinv _ _ eq_refl k Hk). by intros [?|?]%elem_of_cons.
Qed.

(** X8.  When the coordinator has sent to the last client of a fan-out, every
    client in the registry has received the frame, as the last of its
    frames. *)
Theorem fan_out_complete (σ : system) (ev : frame) (cl : client) :
  reachable σ ->
  co σ = sending ev [] ->
  is_Some (clients (str σ) !! cl) ->
  exists h l, hs σ !! cl = Some h /\ got h = l ++ [ev].
Proof.
  intros Hr Hco Hcl.
  assert (Hinv : fanned_out σ).
  { apply (steps_invariant _ step_fanned_out init); [done|].
    intros ? ? Hc. discriminate. }
  apply (Hinv ev [] Hco cl Hcl). apply not_elem_of_nil.
Qed.

Lemma fan_out_complete_witness :
  exists h l, hs one_client_sent !! 1%nat = Some h /\ got h = l ++ [greeting].
Proof.
  apply (fan_out_complete one_client_sent greeting 1%nat).
  - apply reachable_one_client_sent.
  - reflexivity.
  - exists true. reflexivity.
Defined.

(** ** A closing connection against the fan-out *)

(** X9.  Whenever the coordinator, inside a fan-out, is about to send to a
    client whose handler has taken the [close] case and is sending on
    [s.disconnecting], neither send ever completes: in every later
    state the coordinator is at that same send, the registry is the
    same, and no handler has received anything more. *)
Theorem closing_client_blocks_fan_out (σ σ' : system) (ev : frame)
    (cl : client) (todo : list client) (h : handler) :
  co σ = sending ev (cl :: todo) ->
  hs σ !! cl = Some h ->
  at_ h = send_disconnecting ->
  rtc step σ σ' ->
  co σ' = sending ev (cl :: todo)
  /\ clients (str σ') = clients (str σ)
  /\ forall k hk, hs σ !! k = Some hk ->
       exists hk', hs σ' !! k = Some hk' /\ got hk' = got hk.
Proof.
  intros Hco Hh Hat Hsteps.
  destruct (blocked_forever ev cl todo σ σ') as ((Hco' & _) & Hreg & Hgot);
    [split; eauto|done|done].
Qed.

Lemma closing_client_blocks_fan_out_witness :
  let h := ServeHTTP_close (moved in_select (ServeHTTP_enter plain_writer)) in
  let σ := mkSys (mkStreamer [] (<[1%nat := true]> ∅))
             (sending greeting [1%nat]) (<[1%nat := h]> ∅) [greeting] in
  let σ' := mkSys (submit greeting (str σ)) (co σ) (hs σ) (taken σ) in
  co σ' = sending greeting [1%nat]
  /\ clients (str σ') = clients (str σ)
  /\ forall k hk, hs σ !! k = Some hk ->
       exists hk', hs σ' !! k = Some hk' /\ got hk' = got hk.
Proof.
  intros h σ σ'.
  apply (closing_client_blocks_fan_out σ σ' greeting 1%nat [] h).
  - reflexivity.
  - reflexivity.
  - reflexivity.
  - apply rtc_once. apply step_submit.
Defined.

(** ** A handler that has returned *)

Lemma reachable_registry_of_handlers σ : reachable σ -> registry_of_handlers σ.
Proof.
  intros Hr. apply (steps_invariant _ step_registry_of_handlers init); [done|].
  intros k. cbn. by rewrite !lookup_empty.
Qed.

(** X10.  A handler that has returned, refused or after its deregistration,
    is never touched again: in every later state it has received and
    written what it had, and its client is not in the registry.  No
    frame processed after a client has deregistered reaches it. *)
Theorem returned_handler_is_final (σ σ' : system) (cl : client) (h : handler) :
  reachable σ ->
  hs σ !! cl = Some h ->
  at_ h = returned ->
  rtc step σ σ' ->
  hs σ' !! cl = Some h /\ clients (str σ') !! cl = None.
Proof.
  intros Hr Hh Hat Hsteps.
  assert (Hh' : hs σ' !! cl = Some h) by eauto using steps_returned.
  split; [done|].
  assert (Hr' : reachable σ') by (unfold reachable in *; by etrans).
  rewrite (reachable_registry_of_handlers σ' Hr' cl), Hh', Hat. done.
Qed.

Lemma returned_handler_is_final_witness :
  let h := ServeHTTP_enter (mkW true false ∅ None [] []) in
  let σ := mkSys New selecting (<[7%nat := h]> ∅) [] in
  let σ' := mkSys (submit greeting New) selecting (<[7%nat := h]> ∅) [] in
  hs σ' !! 7%nat = Some h /\ clients (str σ') !! 7%nat = None.
Proof.
  intros h σ σ'.
  apply (returned_handler_is_final σ σ' 7%nat h).
  - apply rtc_once. apply (step_serve _ _ _ _ 7%nat). reflexivity.
  - reflexivity.
  - reflexivity.
  - apply rtc_once. apply step_submit.
Defined.

(** ** Connecting and disconnecting *)

(** X11.  A connect request followed by the disconnect request of the same
    client leaves the registry without that client and every other
    entry as it was; for a client that was not registered before, which
    is the case for a new channel, the Streamer is as it was. *)
Theorem connect_then_disconnect (cl : client) (s : Streamer)
    (chans : gmap client (list frame)) :
  (st ← run_case (recv_connecting cl) s chans;
   run_case (recv_disconnecting cl) st.1 st.2)
  = Some (mkStreamer (event s) (delete cl (clients s)), chans)
  /\ (clients s !! cl = None ->
      (st ← run_case (recv_connecting cl) s chans;
       run_case (recv_disconnecting cl) st.1 st.2) = Some (s, chans)).
Proof.
  destruct s as [evs m]. cbn. unfold deregister, register. cbn.
  rewrite delete_insert_eq. split; [done|].
  intros H. by rewrite delete_id.
Qed.

(** ** What a handler writes *)

Lemma header_WriteHeader code w : header (WriteHeader code w) = header w.
Proof. unfold WriteHeader. by destruct (status w). Qed.

Lemma header_event ev h : header (w_ (ServeHTTP_event ev h)) = header (w_ h).
Proof.
  unfold ServeHTTP_event, Flush, Write. cbn [w_ header].
  by rewrite !header_WriteHeader.
Qed.

Lemma sse_headers_enter w :
  at_ (ServeHTTP_enter w) <> returned -> sse_headers (w_ (ServeHTTP_enter w)).
Proof.
  unfold ServeHTTP_enter.
  destruct (flusher w), (closeNotifier w); cbn; try done.
  intros _. unfold sse_headers, Header_Set. cbn. split_and!.
  - rewrite !lookup_insert_ne by done. apply lookup_insert_eq.
  - rewrite lookup_insert_ne by done. apply lookup_insert_eq.
  - apply lookup_insert_eq.
Qed.

Lemma step_streaming_headers σ σ' :
  step σ σ' -> streaming_headers σ -> streaming_headers σ'.
Proof.
  intros Hstep Hinv k hk Hk Hat. unfold streaming_headers in Hinv.
  inv_step Hstep; eauto;
    (destruct (decide (k = cl)) as [->|Hne];
     [rewrite lookup_insert_eq in Hk; injection Hk as <-
     |rewrite lookup_insert_ne in Hk by done; eauto]).
  - by apply sse_headers_enter.
  - cbn in *. apply (Hinv cl h); [done|congruence].
  - cbn in *. apply (Hinv cl h); [done|congruence].
  - by cbn in Hat.
  - unfold sse_headers. rewrite header_event. apply (Hinv cl h); [done|congruence].
Qed.

(** X12.  From its registration request to its return, the response of a
    handler carries the three headers of an event stream, whatever the
    transport had set before and however many frames were written. *)
Theorem handler_keeps_sse_headers (σ : system) (cl : client) (h : handler) :
  reachable σ ->
  hs σ !! cl = Some h ->
  at_ h <> returned ->
  header (w_ h) !! "Cache-Control" = Some "no-cache"
  /\ header (w_ h) !! "Connection" = Some "keep-alive"
  /\ header (w_ h) !! "Content-Type" = Some "text/event-stream".
Proof.
  intros Hr Hh Hat.
  assert (Hinv : streaming_headers σ).
  { apply (steps_invariant _ step_streaming_headers init); [done|].
    intros k hk Hk. cbn in Hk. by rewrite lookup_empty in Hk. }
  by apply (Hinv cl h).
Qed.

Lemma handler_keeps_sse_headers_witness :
  let h := ServeHTTP_event greeting (moved in_select (ServeHTTP_enter plain_writer)) in
  header (w_ h) !! "Cache-Control" = Some "no-cache"
  /\ header (w_ h) !! "Connection" = Some "keep-alive"
  /\ header (w_ h) !! "Content-Type" = Some "text/event-stream".
Proof.
  intros h. apply (handler_keeps_sse_headers one_client 1%nat h).
  - apply reachable_one_client.
  - reflexivity.
  - discriminate.
Defined.

Lemma is_Some_status_WriteHeader code w : is_Some (status (WriteHeader code w)).
Proof.
  unfold WriteHeader. destruct (status w) eqn:E; cbn; [rewrite E|]; by eexists.
Qed.

Lemma wrote_nothing h h' : got h' = got h -> w_ h' = w_ h -> wrote h h' [].
Proof.
  intros Hg Hw. unfold wrote. rewrite Hg, Hw, !app_nil_r. done.
Qed.

Lemma wrote_event ev h : wrote h (ServeHTTP_event ev h) [ev].
Proof.
  unfold wrote, ServeHTTP_event, Flush, Write. cbn [got w_ body flushed status].
  rewrite !body_WriteHeader. cbn [body concat]. rewrite app_nil_r.
  split_and!; [done|done|done|]. intros _. split; [done|].
  apply is_Some_status_WriteHeader.
Qed.

Lemma wrote_trans h1 h2 h3 fs1 fs2 :
  wrote h1 h2 fs1 -> wrote h2 h3 fs2 -> wrote h1 h3 (fs1 ++ fs2).
Proof.
  intros (G1 & B1 & N1 & F1) (G2 & B2 & N2 & F2). unfold wrote.
  split_and!.
  - by rewrite G2, G1, app_assoc.
  - by rewrite B2, B1, concat_app, app_assoc.
  - intros [-> ->]%app_eq_nil. rewrite N2, N1; done.
  - intros Hne. destruct fs2 as [|f fs2].
    + rewrite (N2 eq_refl). apply F1. by rewrite app_nil_r in Hne.
    + by apply F2.
Qed.

Lemma step_wrote σ σ' cl h :
  step σ σ' -> hs σ !! cl = Some h ->
  exists h' fs, hs σ' !! cl = Some h' /\ wrote h h' fs.
Proof.
  intros Hstep Hh.
  inv_step Hstep;
    try (exists h, []; split; [done|by apply wrote_nothing]);
    (destruct (decide (cl = cl0)) as [->|Hne];
     [|exists h, []; split;
        [by rewrite lookup_insert_ne|by apply wrote_nothing]]).
  - congruence.
  - assert (h0 = h) as -> by congruence.
    exists (moved in_select h), []. split; [apply lookup_insert_eq|].
    by apply wrote_nothing.
  - assert (h0 = h) as -> by congruence.
    exists (ServeHTTP_close h), []. split; [apply lookup_insert_eq|].
    by apply wrote_nothing.
  - assert (h0 = h) as -> by congruence.
    exists (moved returned h), []. split; [apply lookup_insert_eq|].
    by apply wrote_nothing.
  - assert (h0 = h) as -> by congruence.
    exists (ServeHTTP_event ev h), [ev]. split; [apply lookup_insert_eq|].
    apply wrote_event.
Qed.

(** X13.  Between any two states, what a handler has written to its response
    is exactly the frames it has received in between, byte for byte and
    in that order; after each of them it has flushed, so nothing written
    is left unsent; and a handler that has received nothing has not
    touched the response. *)
Theorem handler_writes_what_it_receives (σ σ' : system) (cl : client)
    (h : handler) :
  rtc step σ σ' ->
  hs σ !! cl = Some h ->
  exists h' fs, hs σ' !! cl = Some h'
    /\ got h' = got h ++ fs
    /\ body (w_ h') = body (w_ h) ++ concat fs
    /\ (fs = [] -> w_ h' = w_ h)
    /\ (fs <> [] -> flushed (w_ h') = body (w_ h') /\ is_Some (status (w_ h'))).
Proof.
  intros Hsteps. revert h.
  induction Hsteps as [σ|σ σ1 σ2 Hstep _ IH]; intros h Hh.
  - exists h, []. split; [done|]. by apply wrote_nothing.
  - destruct (step_wrote _ _ _ _ Hstep Hh) as (h1 & fs1 & Hh1 & W1).
    destruct (IH h1 Hh1) as (h2 & fs2 & Hh2 & W2).
    exists h2, (fs1 ++ fs2). split; [done|].
    by apply (wrote_trans h h1 h2).
Qed.

Lemma handler_writes_what_it_receives_witness :
  exists h' fs, hs one_client !! 1%nat = Some h'
    /\ got h' = got (ServeHTTP_enter plain_writer) ++ fs
    /\ body (w_ h') = body (w_ (ServeHTTP_enter plain_writer)) ++ concat fs
    /\ (fs = [] -> w_ h' = w_ (ServeHTTP_enter plain_writer))
    /\ (fs <> [] -> flushed (w_ h') = body (w_ h') /\ is_Some (status (w_ h'))).
Proof.
  apply (handler_writes_what_it_receives
           (mkSys New selecting (<[1%nat := ServeHTTP_enter plain_writer]> ∅) [])
           one_client 1%nat (ServeHTTP_enter plain_writer)).
  - unfold one_client.
    set (E := ServeHTTP_enter plain_writer).
    eapply rtc_l; [apply (step_connect _ _ _ 1%nat E); [apply lookup_insert_eq|done]|].
    eapply rtc_l; [apply (step_submit _ _ _ _ greeting)|].
    eapply rtc_l; [apply (step_take [] _ _ [] greeting [1%nat]); apply range_one|].
    eapply rtc_l.
    { apply (step_deliver _ _ _ greeting 1%nat [] (moved in_select E));
        [apply lookup_insert_eq|done]. }
    eapply rtc_l; [apply step_done|]. apply rtc_refl.
  - reflexivity.
Defined.

(** ** No replay *)

Lemma step_not_yet_served σ σ' :
  step σ σ' -> not_yet_served σ -> not_yet_served σ'.
Proof.
  intros Hstep [Hg Ht]. split.
  - intros k hk Hk Hat.
    inv_step Hstep; eauto;
      (destruct (decide (k = cl)) as [->|Hne];
       [rewrite lookup_insert_eq in Hk; injection Hk as <-
       |rewrite lookup_insert_ne in Hk by done; eauto]);
      try (by cbn in Hat).
    apply got_enter.
  - intros ev0 todo0 Hco k Hk.
    inv_step Hstep; try discriminate; cbn [clients submit] in *; eauto.
    + injection Hco as <- <-. apply elem_of_range_clients. by rewrite <- H0.
    + injection Hco as <- <-. eapply Ht; [done|]. by right.
Qed.

Lemma step_since T cl σ σ' :
  step σ σ' ->
  (exists T' h, taken σ = T ++ T' /\ hs σ !! cl = Some h
     /\ since cl (co σ) T' (got h)) ->
  exists T' h, taken σ' = T ++ T' /\ hs σ' !! cl = Some h
     /\ since cl (co σ') T' (got h).
Proof.
  intros Hstep (T' & h & HT & Hh & Hs).
  inv_step Hstep.
  - by exists T', h.
  - exists T', h. split_and!; [done| |done].
    rewrite lookup_insert_ne; [done|congruence].
  - destruct (decide (cl = cl0)) as [->|Hne].
    + assert (h0 = h) as -> by congruence.
      exists T', (moved in_select h). rewrite lookup_insert_eq.
      split_and!; [done|done|]. exact Hs.
    + exists T', h. by rewrite lookup_insert_ne.
  - destruct (decide (cl = cl0)) as [->|Hne].
    + assert (h0 = h) as -> by congruence.
      exists T', (ServeHTTP_close h). rewrite lookup_insert_eq.
      split_and!; [done|done|]. exact Hs.
    + exists T', h. by rewrite lookup_insert_ne.
  - destruct (decide (cl = cl0)) as [->|Hne].
    + assert (h0 = h) as -> by congruence.
      exists T', (moved returned h). rewrite lookup_insert_eq.
      split_and!; [done|done|]. exact Hs.
    + exists T', h. by rewrite lookup_insert_ne.
  - exists (T' ++ [ev]), h. split_and!; [by rewrite HT, app_assoc|done|].
    cbn in *. destruct (decide (cl ∈ todo)).
    + split; [rewrite H0; apply NoDup_fst_map_to_list|]. by exists T'.
    + by apply sublist_inserts_r.
  - cbn in Hs. destruct (decide (cl = cl0)) as [->|Hne].
    + rewrite decide_True in Hs by (by left).
      destruct Hs as ([Hnin Hnd]%NoDup_cons & U & -> & Hsub).
      assert (h0 = h) as -> by congruence.
      exists (U ++ [ev]), (ServeHTTP_event ev h). rewrite lookup_insert_eq.
      split_and!; [done|done|]. cbn. rewrite decide_False by done.
      by apply sublist_app.
    + exists T', h. rewrite lookup_insert_ne by done.
      split_and!; [done|done|]. cbn.
      destruct (decide (cl ∈ todo)) as [Hin|Hnin].
      * rewrite decide_True in Hs by (by right).
        destruct Hs as ([_ Hnd]%NoDup_cons & Hrest). done.
      * rewrite decide_False in Hs; [done|]. by intros [?|?]%elem_of_cons.
  - exists T', h. split_and!; [done|done|]. cbn in *.
    rewrite decide_False in Hs; [done|]. apply not_elem_of_nil.
Qed.

Lemma steps_since T cl σ σ' :
  rtc step σ σ' ->
  (exists T' h, taken σ = T ++ T' /\ hs σ !! cl = Some h
     /\ since cl (co σ) T' (got h)) ->
  exists T' h, taken σ' = T ++ T' /\ hs σ' !! cl = Some h
     /\ since cl (co σ') T' (got h).
Proof. induction 1; eauto using step_since. Qed.

(** X14.  A client gets no frame from before its registration: from a state
    where its handler has not yet been registered, every frame the
    handler has received in a later state is among the frames taken
    from [s.event] after that state, in their order. *)
Theorem no_replay (σ σ' : system) (cl : client) (h : handler) :
  reachable σ ->
  hs σ !! cl = Some h ->
  at_ h = send_connecting ->
  rtc step σ σ' ->
  exists T' h', taken σ' = taken σ ++ T'
    /\ hs σ' !! cl = Some h'
    /\ got h' `sublist_of` T'.
Proof.
  intros Hr Hh Hat Hsteps.
  assert (Hn : not_yet_served σ).
  { apply (steps_invariant _ step_not_yet_served init); [done|].
    split; [intros k hk Hk; cbn in Hk; by rewrite lookup_empty in Hk|].
    intros ? ? Hc. discriminate. }
  destruct Hn as [Hg Ht].
  assert (Hstart : exists T' h0, taken σ = taken σ ++ T' /\ hs σ !! cl = Some h0
                     /\ since cl (co σ) T' (got h0)).
  { exists [], h. rewrite app_nil_r, (Hg cl h Hh Hat).
    split_and!; [done|done|]. unfold since.
    destruct (co σ) as [|ev todo] eqn:Hco; [done|].
    rewrite decide_False; [done|]. intros Hin.
    specialize (Ht ev todo eq_refl cl Hin).
    rewrite (reachable_registry_of_handlers σ Hr cl), Hh, Hat in Ht.
    by destruct Ht. }
  assert (Hend : exists T' h', taken σ' = taken σ ++ T' /\ hs σ' !! cl = Some h'
                   /\ since cl (co σ') T' (got h')).
  { by apply (steps_since (taken σ) cl σ σ'). }
  destruct Hend as (T' & h' & HT & Hh' & Hs). exists T', h'.
  split_and!; [done|done|]. unfold since in Hs.
  destruct (co σ') as [|ev todo]; [done|].
  destruct (decide (cl ∈ todo)); [|done].
  destruct Hs as (_ & T0 & -> & Hsub). by apply sublist_inserts_r.
Qed.

Lemma no_replay_witness :
  exists T' h', taken one_client = [] ++ T'
    /\ hs one_client !! 1%nat = Some h'
    /\ got h' `sublist_of` T'.
Proof.
  apply (no_replay
           (mkSys New selecting (<[1%nat := ServeHTTP_enter plain_writer]> ∅) [])
           one_client 1%nat (ServeHTTP_enter plain_writer)).
  - apply rtc_once. apply (step_serve _ _ _ _ 1%nat). reflexivity.
  - reflexivity.
  - reflexivity.
  - unfold one_client.
    set (E := ServeHTTP_enter plain_writer).
    eapply rtc_l; [apply (step_connect _ _ _ 1%nat E); [apply lookup_insert_eq|done]|].
    eapply rtc_l; [apply (step_submit _ _ _ _ greeting)|].
    eapply rtc_l; [apply (step_take [] _ _ [] greeting [1%nat]); apply range_one|].
    eapply rtc_l.
    { apply (step_deliver _ _ _ greeting 1%nat [] (moved in_select E));
        [apply lookup_insert_eq|done]. }
    eapply rtc_l; [apply step_done|]. apply rtc_refl.
Defined.
